(** * lexicalTest: dictionary matcher, span transforms, lifecycle tracker
      and block identifier assigner.

    A shallow embedding of
      - [src/shared/utils/Trie.ts]                      (module [Trie]),
      - the ForeignWordPlugin node transforms            (module [Span]),
      - [ForeignAndRefineWordPlugin.tsx], tracking part  (module [Tracker]),
      - [ForeignAndRefineWordPlugin.tsx], data-unique part (module [Unique]),
      - the DOM export and import of ForeignWordNode (module [ForeignWordNode]),
      - [foreignWords.ts], the dictionary                (module [Data]),
    followed by the properties established about them. *)

From Stdlib Require Import ZArith Lia.
From stdpp Require Import base option list sorting gmap strings pretty.

Set Warnings "-register-all".

(* ===================================================================== *)
(** ** JavaScript strings *)
(* ===================================================================== *)

(** A JavaScript string is a sequence of UTF-16 code units.  [s.length]
    is [length s] and [s[j]] is the one-unit string [[u]] for
    [s !! j = Some u]. *)
Abbreviation JSString := (list N).

Module JS.

(** An ASCII literal as a JavaScript string. *)
Definition lit (s : string) : JSString :=
  map Ascii.N_of_ascii (String.list_ascii_of_string s).

Definition isLeadSurrogate (u : N) : bool :=
  ((0xD800 <=? u) && (u <=? 0xDBFF))%N.

Definition isTrailSurrogate (u : N) : bool :=
  ((0xDC00 <=? u) && (u <=? 0xDFFF))%N.

(** [for (const char of s)]: the string iterator yields code points, a
    lead surrogate followed by a trail surrogate being one item. *)
Fixpoint codePoints (s : JSString) : list JSString :=
  match s with
  | [] => []
  | u :: rest =>
      match rest with
      | v :: rest' =>
          if isLeadSurrogate u && isTrailSurrogate v
          then [u; v] :: codePoints rest'
          else [u] :: codePoints rest
      | [] => [[u]]
      end
  end.

(** The items [s[0]], [s[1]], ... of index access. *)
Definition units (s : JSString) : list JSString := map (λ u, [u]) s.

(** Truthiness of an optional string field: [undefined] and the empty
    string are falsy. *)
Definition truthy (s : option JSString) : bool :=
  match s with
  | Some (_ :: _) => true
  | _ => false
  end.

(** A [Set<string>] in insertion order. *)
Definition setAdd (x : JSString) (s : list JSString) : list JSString :=
  if decide (x ∈ s) then s else s ++ [x].

Definition setHas (x : JSString) (s : list JSString) : bool :=
  bool_decide (x ∈ s).

(** The code points of a UTF-8 byte sequence, for literals of the source
    that are not ASCII; a sequence cut short is dropped. *)
Fixpoint utf8CodePoints (bytes : list N) : list N :=
  match bytes with
  | [] => []
  | b0 :: t0 =>
      if (b0 <? 0x80)%N then b0 :: utf8CodePoints t0
      else
        match t0 with
        | [] => []
        | b1 :: t1 =>
            if (b0 <? 0xE0)%N then
              N.lor (N.shiftl (N.land b0 0x1F) 6) (N.land b1 0x3F)
              :: utf8CodePoints t1
            else
              match t1 with
              | [] => []
              | b2 :: t2 =>
                  if (b0 <? 0xF0)%N then
                    N.lor (N.shiftl (N.land b0 0x0F) 12)
                      (N.lor (N.shiftl (N.land b1 0x3F) 6) (N.land b2 0x3F))
                    :: utf8CodePoints t2
                  else
                    match t2 with
                    | [] => []
                    | b3 :: t3 =>
                        N.lor (N.shiftl (N.land b0 0x07) 18)
                          (N.lor (N.shiftl (N.land b1 0x3F) 12)
                             (N.lor (N.shiftl (N.land b2 0x3F) 6)
                                (N.land b3 0x3F)))
                        :: utf8CodePoints t3
                    end
              end
        end
  end.

(** The UTF-16 code units of a code point. *)
Definition utf16 (cp : N) : JSString :=
  if (cp <? 0x10000)%N then [cp]
  else
    [ (0xD800 + N.shiftr (cp - 0x10000) 10)%N;
      (0xDC00 + N.land (cp - 0x10000) 0x3FF)%N ].

(** A literal of the source, written in UTF-8, as a JavaScript string. *)
Definition utf8 (s : string) : JSString :=
  utf8CodePoints (lit s) ≫= utf16.

End JS.

(* ===================================================================== *)
(** ** Trie.ts *)
(* ===================================================================== *)

Module TrieNode.

(** [interface TrieNode]; the optional fields are [None] when
    [undefined]. *)
Inductive TrieNode : Type := Build {
  children : gmap JSString TrieNode;
  isEndOfWord : bool;
  word : option JSString;
  replacement : option JSString
}.

End TrieNode.

Abbreviation TrieNode := TrieNode.TrieNode.

Module Trie.

Record Trie : Type := { root : TrieNode }.

(** The element type of the array returned by [findAllMatches];
    [end_] is the source's [end]. *)
Record Match : Type := {
  start : Z;
  end_ : Z;
  word : JSString;
  replacement : JSString
}.

(** The local [lastMatch] of [findAllMatches]. *)
Record LastMatch : Type := {
  last_end : Z;
  last_word : JSString;
  last_replacement : JSString
}.

Definition createNode : TrieNode :=
  TrieNode.Build ∅ false None None.

(** [new Trie()] *)
Definition new : Trie := {| root := createNode |}.

(** The loop of [insert] from node [current] on, followed by the three
    assignments on the node reached. *)
Fixpoint insertFrom (current : TrieNode) (chars : list JSString)
    (w r : JSString) : TrieNode :=
  match chars with
  | [] =>
      TrieNode.Build (TrieNode.children current) true (Some w) (Some r)
  | char :: chars' =>
      let child :=
        match TrieNode.children current !! char with
        | Some c => c
        | None => createNode
        end in
      TrieNode.Build
        (<[char := insertFrom child chars' w r]> (TrieNode.children current))
        (TrieNode.isEndOfWord current)
        (TrieNode.word current)
        (TrieNode.replacement current)
  end.

Definition insert (t : Trie) (w r : JSString) : Trie :=
  {| root := insertFrom (root t) (JS.codePoints w) w r |}.

(** [current.isEndOfWord && current.word && current.replacement], with
    the two strings it gives access to. *)
Definition recordable (current : TrieNode) : option (JSString * JSString) :=
  match TrieNode.word current, TrieNode.replacement current with
  | Some w, Some r =>
      if TrieNode.isEndOfWord current
         && JS.truthy (Some w) && JS.truthy (Some r)
      then Some (w, r) else None
  | _, _ => None
  end.

(** The inner [while] loop of [findAllMatches]: [rest] is the text from
    index [j] on, so that its head is [text[j]] and it is empty exactly
    when [j = text.length]. *)
Fixpoint walk (current : TrieNode) (rest : JSString) (j : Z)
    (lastMatch : option LastMatch) : option LastMatch :=
  match rest with
  | [] => lastMatch
  | c :: rest' =>
      match TrieNode.children current !! [c] with
      | None => lastMatch
      | Some next =>
          walk next rest' (j + 1)%Z
            (match recordable next with
             | Some (w, r) =>
                 Some {| last_end := (j + 1)%Z; last_word := w;
                         last_replacement := r |}
             | None => lastMatch
             end)
      end
  end.

(** One iteration of the outer [for] loop: what is pushed for start
    offset [i], if anything. *)
Definition matchAt (t : Trie) (text : JSString) (i : nat) : option Match :=
  match walk (root t) (drop i text) (Z.of_nat i) None with
  | Some lastMatch =>
      Some {| start := Z.of_nat i; end_ := last_end lastMatch;
              word := last_word lastMatch;
              replacement := last_replacement lastMatch |}
  | None => None
  end.

(** The array [matches] when the outer loop is over. *)
Definition candidates (t : Trie) (text : JSString) : list Match :=
  omap (matchAt t text) (seq 0 (length text)).

(** The comparator handed to [Array.prototype.sort]. *)
Definition compareMatches (a b : Match) : Z :=
  if decide (start a ≠ start b) then (start a - start b)%Z
  else (end_ b - start b - (end_ a - start a))%Z.

(** [Array.prototype.sort] is stable: an element goes before the first
    later one it does not compare greater than. *)
Fixpoint insertSorted (a : Match) (sorted : list Match) : list Match :=
  match sorted with
  | [] => [a]
  | b :: sorted' =>
      if (compareMatches a b <=? 0)%Z then a :: b :: sorted'
      else b :: insertSorted a sorted'
  end.

Definition sort (matches : list Match) : list Match :=
  foldr insertSorted [] matches.

(** The [for ... of sorted] loop of [removeOverlappingMatches]; the
    accepted matches are returned in the order they were pushed. *)
Fixpoint sweep (sorted : list Match) (lastEnd : Z) : list Match :=
  match sorted with
  | [] => []
  | m :: sorted' =>
      if (start m >=? lastEnd)%Z then m :: sweep sorted' (end_ m)
      else sweep sorted' lastEnd
  end.

Definition removeOverlappingMatches (matches : list Match) : list Match :=
  match matches with
  | [] => []
  | _ => sweep (sort matches) (-1)%Z
  end.

Definition findAllMatches (t : Trie) (text : JSString) : list Match :=
  removeOverlappingMatches (candidates t text).

(** The descent shared by [search] and [getReplacement]; [None] is the
    early [return] on a missing edge. *)
Fixpoint descend (current : TrieNode) (chars : list JSString)
    : option TrieNode :=
  match chars with
  | [] => Some current
  | char :: chars' =>
      match TrieNode.children current !! char with
      | None => None
      | Some next => descend next chars'
      end
  end.

Definition search (t : Trie) (w : JSString) : bool :=
  match descend (root t) (JS.codePoints w) with
  | None => false
  | Some current => TrieNode.isEndOfWord current
  end.

Definition getReplacement (t : Trie) (w : JSString) : option JSString :=
  match descend (root t) (JS.codePoints w) with
  | None => None
  | Some current =>
      if TrieNode.isEndOfWord current
         && JS.truthy (TrieNode.replacement current)
      then TrieNode.replacement current else None
  end.

(** The build loop of the plugin:
    [data.forEach((fw) => trie.insert(fw.word, fw.replacement))]. *)
Definition build (data : list (JSString * JSString)) : Trie :=
  foldl (λ t fw, insert t fw.1 fw.2) new data.

End Trie.

(* ===================================================================== *)
(** ** The document tree *)
(* ===================================================================== *)

Module Lexical.

(** Modelled from the spec: the host's document tree (section 3,
    DocumentNode, and the tree access interface of section 6); the
    editor library that owns it is not part of the repository.  A text
    leaf is a plain [TextNode] or the repository's [ForeignWordNode],
    which extends it with [__replacement]; [LeafNode] is any leaf that
    is not text.  An element carries its string attributes (an element
    without a [getAttribute] method reads like one without attributes),
    its DOM element [__dom] with its attributes, if it has one, and its
    children. *)
Inductive LexicalNode : Type :=
| TextNode (text : JSString)
| ForeignWordNode (text replacement : JSString)
| LeafNode
| ElementNode (attributes : gmap JSString JSString)
              (dom : option (gmap JSString JSString))
              (children : list LexicalNode).

(** [$isElementNode] *)
Definition isElementNode (node : LexicalNode) : bool :=
  match node with ElementNode _ _ _ => true | _ => false end.

(** [node instanceof TextNode] *)
Definition isTextNode (node : LexicalNode) : bool :=
  match node with
  | TextNode _ | ForeignWordNode _ _ => true
  | _ => false
  end.

(** [$isForeignWordNode] *)
Definition isForeignWordNode (node : LexicalNode) : bool :=
  match node with ForeignWordNode _ _ => true | _ => false end.

(** [getTextContent] of a text leaf. *)
Definition textOf (node : LexicalNode) : option JSString :=
  match node with
  | TextNode text | ForeignWordNode text _ => Some text
  | _ => None
  end.

(** Modelled from the spec: "split a text leaf at a character offset
    into two sibling leaves".  The leaf at [idx] keeps the text before
    [offset] and a new plain text leaf with the rest follows it; the
    result lists the parts by position.  An offset that is not strictly
    inside the text leaves the leaf whole, and an empty leaf has no
    part. *)
Definition splitText (siblings : list LexicalNode) (idx : nat) (offset : Z)
    : option (list LexicalNode * list nat) :=
  node ← siblings !! idx;
  text ← textOf node;
  if decide (text = []) then Some (siblings, [])
  else if ((0 <? offset) && (offset <? Z.of_nat (length text)))%Z then
    let k := Z.to_nat offset in
    let first :=
      match node with
      | ForeignWordNode _ r => ForeignWordNode (take k text) r
      | _ => TextNode (take k text)
      end in
    Some (take idx siblings ++ first :: TextNode (drop k text)
            :: drop (S idx) siblings,
          [idx; S idx])
  else Some (siblings, [idx]).

End Lexical.

Export Lexical.

(* ===================================================================== *)
(** ** ForeignWordPlugin: the two node transforms *)
(* ===================================================================== *)

Module Span.

(** A reference to a text node held by the transform: a node that is
    among the siblings, or one that [replace] has taken out of the
    tree. *)
Inductive Handle : Type :=
| Attached (idx : nat)
| Detached (node : LexicalNode).

(** The variables of the [for] loop of the TextNode transform;
    [currentNode] is [None] when it holds [undefined]. *)
Record Loop : Type := {
  siblings : list LexicalNode;
  currentNode : option Handle;
  processedLength : Z
}.

(** [const [a, b] = parts]: the item at a position, if there is one. *)
Definition part (parts : list nat) (i : nat) : option nat := parts !! i.

Definition nodeAt (sibs : list LexicalNode) (idx : nat)
    : option LexicalNode := sibs !! idx.

Definition getTextContent (sibs : list LexicalNode) (h : Handle)
    : option JSString :=
  match h with
  | Attached idx => nodeAt sibs idx ≫= textOf
  | Detached node => textOf node
  end.

(** "시작 부분 분할": the siblings, [targetNode] and [processedLength]
    after the split at the start of the match, if one is made. *)
Definition splitStart (sibs : list LexicalNode) (idx : nat)
    (relativeStart processed : Z) : option (list LexicalNode * nat * Z) :=
  if (relativeStart >? 0)%Z then
    match splitText sibs idx relativeStart with
    | Some (sibs', parts) =>
        before ← part parts 0;
        after ← part parts 1;
        beforeText ← nodeAt sibs' before ≫= textOf;
        Some (sibs', after, (processed + Z.of_nat (length beforeText))%Z)
    | None => None
    end
  else Some (sibs, idx, processed).

(** "끝 부분 분할": the siblings, [targetNode] and [currentNode] after
    the split at the end of the match, or after the move to the next
    sibling. *)
Definition splitEnd (sibs : list LexicalNode) (targetNode : nat)
    (matchLength : Z) (targetText : JSString) (current : option Handle)
    : option (list LexicalNode * option nat * option Handle) :=
  if (matchLength <? Z.of_nat (length targetText))%Z then
    match splitText sibs targetNode matchLength with
    | Some (sibs', parts) =>
        Some (sibs', part parts 0, Attached <$> part parts 1)
    | None => None
    end
  else
    match nodeAt sibs (S targetNode) with
    | Some nextSibling =>
        if isTextNode nextSibling
        then Some (sibs, Some targetNode, Some (Attached (S targetNode)))
        else Some (sibs, Some targetNode, current)
    | None => Some (sibs, Some targetNode, current)
    end.

(** [current === node at idx] *)
Definition refersTo (current : option Handle) (idx : nat) : bool :=
  match current with
  | Some (Attached i) => bool_decide (i = idx)
  | _ => false
  end.

(** [targetNode.replace(foreignWordNode)]; a [currentNode] that refers
    to the node replaced refers to a node outside the tree from then
    on. *)
Definition replaceTarget (sibs : list LexicalNode) (targetNode : nat)
    (current : option Handle) (m : Trie.Match)
    : option (list LexicalNode * option Handle) :=
  replaced ← nodeAt sibs targetNode;
  let foreignWordNode :=
    ForeignWordNode (Trie.word m) (Trie.replacement m) in
  Some (<[targetNode := foreignWordNode]> sibs,
        if refersTo current targetNode
        then Some (Detached replaced) else current).

(** The body of the [for] loop for one match.  [None] is an exception:
    a method call on [undefined], or a split or replacement asked of a
    node that has left the tree, which the host interface does not
    offer. *)
Definition iteration (st : Loop) (m : Trie.Match) : option Loop :=
  cur ← currentNode st;
  currentText ← getTextContent (siblings st) cur;
  let relativeStart := (Trie.start m - processedLength st)%Z in
  if ((relativeStart <? 0)
      || (relativeStart >=? Z.of_nat (length currentText)))%Z
  then Some st
  else
    match cur with
    | Detached _ => None
    | Attached idx =>
        match splitStart (siblings st) idx relativeStart
                (processedLength st) with
        | Some (sibs1, targetNode, processed1) =>
            targetText ← nodeAt sibs1 targetNode ≫= textOf;
            let matchLength := (Trie.end_ m - Trie.start m)%Z in
            match splitEnd sibs1 targetNode matchLength targetText
                    (currentNode st) with
            | Some (sibs2, Some targetNode2, currentNode2) =>
                match replaceTarget sibs2 targetNode2 currentNode2 m with
                | Some (sibs3, currentNode3) =>
                    Some {| siblings := sibs3;
                            currentNode := currentNode3;
                            processedLength := (processed1 + matchLength)%Z |}
                | None => None
                end
            | _ => None
            end
        | None => None
        end
    end.

Fixpoint iterations (st : Loop) (matches : list Trie.Match) : option Loop :=
  match matches with
  | [] => Some st
  | m :: matches' => st' ← iteration st m; iterations st' matches'
  end.

(** The TextNode transform, run on the child at [idx] of an element
    whose children are [sibs]; the result is the children afterwards.
    The host runs it on text nodes only. *)
Definition textNodeTransform (trie : Trie.Trie) (sibs : list LexicalNode)
    (idx : nat) : option (list LexicalNode) :=
  match sibs !! idx with
  | Some (TextNode text) =>
      if decide (text = []) then Some sibs
      else
        let matches := Trie.findAllMatches trie text in
        if decide (length matches = 0) then Some sibs
        else
          siblings <$>
            iterations {| siblings := sibs;
                          currentNode := Some (Attached idx);
                          processedLength := 0 |} matches
  | _ => Some sibs
  end.

(** The ForeignWordNode transform: what stands in the place of [node]
    afterwards.  The host runs it on ForeignWordNodes only. *)
Definition foreignWordTransform (trie : Trie.Trie) (node : LexicalNode)
    : LexicalNode :=
  match node with
  | ForeignWordNode text _ =>
      if negb (Trie.search trie text) then TextNode text else node
  | _ => node
  end.

(** Modelled from the spec: the reverse transform of section 4.2 run
    "for each existing AnnotatedSpanNode" of a tree; the host schedules
    the calls. *)
Fixpoint reverseTransform (trie : Trie.Trie) (node : LexicalNode)
    : LexicalNode :=
  match node with
  | ElementNode attributes dom children =>
      ElementNode attributes dom (reverseTransform trie <$> children)
  | _ => foreignWordTransform trie node
  end.

(** The annotated spans of a tree whose text fails [search]. *)
Fixpoint divergentSpans (trie : Trie.Trie) (node : LexicalNode)
    : list LexicalNode :=
  match node with
  | ElementNode _ _ children => children ≫= divergentSpans trie
  | ForeignWordNode text _ =>
      if negb (Trie.search trie text) then [node] else []
  | _ => []
  end.

End Span.

(* ===================================================================== *)
(** ** ForeignAndRefineWordPlugin: tracking of word ids *)
(* ===================================================================== *)

Module Tracker.

Definition getNodeAttribute (node : LexicalNode) (attributeName : JSString)
    : option JSString :=
  match node with
  | ElementNode attributes _ _ => attributes !! attributeName
  | _ => None
  end.

(** Modelled from the spec: "enumerate all leaf text nodes and their
    structural parent", that is [getParent()] of every node of
    [root.getAllTextNodes()], in document order. *)
Fixpoint textNodeParents (node : LexicalNode) : list LexicalNode :=
  match node with
  | ElementNode _ _ children =>
      children ≫= λ child,
        if isTextNode child then [node] else textNodeParents child
  | _ => []
  end.

(** [collectWordIds] in the editor state whose root is [root]. *)
Definition collectWordIds (root : LexicalNode) (attributeName : JSString)
    : list JSString :=
  foldl
    (λ ids parent,
       match getNodeAttribute parent attributeName with
       | Some id => if JS.truthy (Some id) then JS.setAdd id ids else ids
       | None => ids
       end)
    [] (textNodeParents root).

Definition findDeletedWordIds (previousIds currentIds : list JSString)
    : list JSString :=
  foldl
    (λ deletedIds id,
       if negb (JS.setHas id currentIds) then JS.setAdd id deletedIds
       else deletedIds)
    [] previousIds.

(** [handleEditorUpdate]; the callback acts on the state [sink] of
    whoever receives the deletions. *)
Definition handleEditorUpdate {Sink : Type}
    (editorState prevEditorState : LexicalNode) (attributeName : JSString)
    (onWordDeleted : JSString → Sink → Sink) (sink : Sink) : Sink :=
  let previousIds := collectWordIds prevEditorState attributeName in
  let currentIds := collectWordIds editorState attributeName in
  let deletedIds := findDeletedWordIds previousIds currentIds in
  foldl (λ s id, onWordDeleted id s) sink deletedIds.

(** A callback that keeps the ids it is called with, in call order. *)
Definition logCall (id : JSString) (calls : list JSString) : list JSString :=
  calls ++ [id].

(** [NodeMutation] of the host. *)
Inductive NodeMutation : Type := created | updated | destroyed.

#[global] Instance NodeMutation_eq_dec : EqDecision NodeMutation.
Proof. solve_decision. Defined.

(** [handleNodeMutations]; [mutations] is the [Map] in its iteration
    order, and the callback acts on the state [sink] as in
    [handleEditorUpdate]. *)
Definition handleNodeMutations {Sink : Type}
    (mutations : list (JSString * NodeMutation))
    (nodeMap : gmap JSString LexicalNode) (attributeName : JSString)
    (onWordDeleted : JSString → Sink → Sink) (sink : Sink) : Sink :=
  foldl
    (λ s entry,
       match entry.2 with
       | destroyed =>
           match nodeMap !! entry.1 with
           | Some node =>
               match getNodeAttribute node attributeName with
               | Some wordId =>
                   if JS.truthy (Some wordId) then onWordDeleted wordId s
                   else s
               | None => s
               end
           | None => s
           end
       | _ => s
       end)
    sink mutations.

End Tracker.

(* ===================================================================== *)
(** ** ForeignAndRefineWordPlugin: the data-unique attribute *)
(* ===================================================================== *)

Module Unique.

Definition DATA_UNIQUE_ATTRIBUTE : JSString := JS.lit "data-unique".

Definition Prefix_UNIQUE : JSString := JS.lit "unique".

(** What one call of [generateUniqueId] reads from its environment:
    [Date.now()] and [Math.random().toString(36).slice(2, 11)]. *)
Record Entropy : Type := { now : N; random : JSString }.

Definition generateUniqueId (prefix : JSString) (e : Entropy) : JSString :=
  prefix ++ JS.lit "-" ++ JS.lit (pretty (now e)) ++ JS.lit "-" ++ random e.

Definition getNodeDOMElement (node : LexicalNode)
    : option (gmap JSString JSString) :=
  match node with
  | ElementNode _ dom _ => dom
  | _ => None
  end.

Definition getUniqueAttributeValue (node : LexicalNode) : option JSString :=
  dom ← getNodeDOMElement node; dom !! DATA_UNIQUE_ATTRIBUTE.

(** [None] is the result [false]; otherwise the node with its DOM
    attribute set. *)
Definition setUniqueAttributeValue (node : LexicalNode) (value : JSString)
    : option LexicalNode :=
  match node with
  | ElementNode attributes (Some dom) children =>
      Some (ElementNode attributes
              (Some (<[DATA_UNIQUE_ATTRIBUTE := value]> dom)) children)
  | _ => None
  end.

(** [root.getChildren()] *)
Definition getChildren (node : LexicalNode) : list LexicalNode :=
  match node with
  | ElementNode _ _ children => children
  | _ => []
  end.

Definition collectExistingUniqueValues (root : LexicalNode) : list JSString :=
  foldl
    (λ values child,
       match getUniqueAttributeValue child with
       | Some value =>
           if JS.truthy (Some value) then JS.setAdd value values else values
       | None => values
       end)
    [] (getChildren root).

(** The state threaded through a pass: the set [existingValues] and the
    number of identifiers generated so far. *)
Record Pass : Type := { existingValues : list JSString; generated : nat }.

Section WithEntropy.

(** The environment of the [k]-th call of [generateUniqueId]. *)
Variable entropy : nat → Entropy.

(** "새 고유 값 생성 및 할당": the second half of
    [assignUniqueAttributeIfNeeded]. *)
Definition assignFresh (node : LexicalNode) (st : Pass)
    : LexicalNode * Pass * bool :=
  let newValue := generateUniqueId Prefix_UNIQUE (entropy (generated st)) in
  match setUniqueAttributeValue node newValue with
  | Some node' =>
      (node',
       {| existingValues := JS.setAdd newValue (existingValues st);
          generated := S (generated st) |},
       true)
  | None =>
      (node,
       {| existingValues := existingValues st;
          generated := S (generated st) |},
       false)
  end.

(** The node afterwards, the state afterwards and the result. *)
Definition assignUniqueAttributeIfNeeded (node : LexicalNode) (st : Pass)
    : LexicalNode * Pass * bool :=
  if negb (isElementNode node) then (node, st, false)
  else
    match getUniqueAttributeValue node with
    | Some currentValue =>
        if JS.truthy (Some currentValue)
           && negb (JS.setHas currentValue (existingValues st))
        then (node,
              {| existingValues := JS.setAdd currentValue (existingValues st);
                 generated := generated st |},
              false)
        else assignFresh node st
    | None => assignFresh node st
    end.

(** The [for ... of root.getChildren()] loop of
    [processAllRootChildren]. *)
Fixpoint assignAll (children : list LexicalNode) (st : Pass)
    : list LexicalNode * Pass :=
  match children with
  | [] => ([], st)
  | child :: children' =>
      let '(child', st', _) := assignUniqueAttributeIfNeeded child st in
      let '(rest, st'') := assignAll children' st' in
      (child' :: rest, st'')
  end.

(** [processAllRootChildren] on the tree whose root is [root]: the
    children of the root afterwards. *)
Definition processAllRootChildren (root : LexicalNode) : list LexicalNode :=
  let existingValues := collectExistingUniqueValues root in
  (assignAll (getChildren root)
     {| existingValues := existingValues; generated := 0 |}).1.

End WithEntropy.

(** The data-unique values of a sequence of top-level nodes. *)
Definition uniqueIds (blocks : list LexicalNode) : list JSString :=
  omap getUniqueAttributeValue blocks.

(** [MutationType] *)
Inductive MutationType : Type := created | updated | destroyed.

Section Mutated.

Variable entropy : nat → Entropy.

(** The [for ... of mutations] loop of [processMutatedNodes]:
    [mutations] is the [Map] in its iteration order, [nodeMap] is
    [editor.getEditorState()._nodeMap], whose nodes the loop writes
    to. *)
Fixpoint assignMutated (mutations : list (JSString * MutationType))
    (nodeMap : gmap JSString LexicalNode) (st : Pass)
    : gmap JSString LexicalNode * Pass :=
  match mutations with
  | [] => (nodeMap, st)
  | (nodeKey, mutation) :: mutations' =>
      match mutation with
      | destroyed => assignMutated mutations' nodeMap st
      | _ =>
          match nodeMap !! nodeKey with
          | Some node =>
              let '(node', st', _) :=
                assignUniqueAttributeIfNeeded entropy node st in
              assignMutated mutations' (<[nodeKey := node']> nodeMap) st'
          | None => assignMutated mutations' nodeMap st
          end
      end
  end.

(** [processMutatedNodes] with the tree whose root is [root] as the
    active state: the node map afterwards. *)
Definition processMutatedNodes (root : LexicalNode)
    (mutations : list (JSString * MutationType))
    (nodeMap : gmap JSString LexicalNode) : gmap JSString LexicalNode :=
  let existingValues := collectExistingUniqueValues root in
  (assignMutated mutations nodeMap
     {| existingValues := existingValues; generated := 0 |}).1.

End Mutated.

End Unique.

(* ===================================================================== *)
(** ** ForeignWordNode: export to the DOM and import from it *)
(* ===================================================================== *)

Module ForeignWordNode.

(** An element of the DOM as far as the node reads and writes it: its
    name in lower case, on which the host chooses the conversion, its
    attributes and its text content. *)
Record HTMLElement : Type := {
  localName : JSString;
  attributes : gmap JSString JSString;
  textContent : JSString
}.

(** [document.createElement(tag)] *)
Definition createElement (tag : JSString) : HTMLElement :=
  {| localName := tag; attributes := ∅; textContent := [] |}.

Definition setAttribute (name value : JSString) (element : HTMLElement)
    : HTMLElement :=
  {| localName := localName element;
     attributes := <[name := value]> (attributes element);
     textContent := textContent element |}.

Definition getAttribute (name : JSString) (element : HTMLElement)
    : option JSString :=
  attributes element !! name.

Definition hasAttribute (name : JSString) (element : HTMLElement) : bool :=
  bool_decide (is_Some (attributes element !! name)).

(** [exportDOM] of the node with the given [__text] and
    [__replacement]. *)
Definition exportDOM (text replacement : JSString) : HTMLElement :=
  let element := createElement (JS.lit "span") in
  let element := setAttribute (JS.lit "data-foreign-word") (JS.lit "true") element in
  let element := setAttribute (JS.lit "data-replacement") replacement element in
  {| localName := localName element;
     attributes := attributes element;
     textContent := text |}.

(** [convertForeignWordElement]; the text content of an element is never
    [null]. *)
Definition convertForeignWordElement (domNode : HTMLElement)
    : option LexicalNode :=
  match getAttribute (JS.lit "data-replacement") domNode with
  | Some replacement => Some (ForeignWordNode (textContent domNode) replacement)
  | None => None
  end.

(** [importDOM]: the conversion registered for [span], run on the
    element when the element is not turned away. *)
Definition importDOM (domNode : HTMLElement) : option LexicalNode :=
  if decide (localName domNode = JS.lit "span") then
    if negb (hasAttribute (JS.lit "data-foreign-word") domNode) then None
    else convertForeignWordElement domNode
  else None.

End ForeignWordNode.

(* ===================================================================== *)
(** ** foreignWords.ts: the dictionary of the plugin *)
(* ===================================================================== *)

Module Data.

Definition foreignWordsData : list (JSString * JSString) :=
  [ (JS.utf8 "커피", JS.utf8 "가배");
    (JS.utf8 "컴퓨터", JS.utf8 "전산기");
    (JS.utf8 "스마트폰", JS.utf8 "똑똑누리손전화기");
    (JS.utf8 "인터넷", JS.utf8 "누리망");
    (JS.utf8 "마우스", JS.utf8 "쥐");
    (JS.utf8 "키보드", JS.utf8 "자판");
    (JS.utf8 "모니터", JS.utf8 "화면");
    (JS.utf8 "프린터", JS.utf8 "인쇄기");
    (JS.utf8 "스캐너", JS.utf8 "주사기");
    (JS.utf8 "카메라", JS.utf8 "사진기");
    (JS.utf8 "비디오", JS.utf8 "동영상");
    (JS.utf8 "오디오", JS.utf8 "음성");
    (JS.utf8 "파일", JS.utf8 "문서철");
    (JS.utf8 "폴더", JS.utf8 "보관함");
    (JS.utf8 "메일", JS.utf8 "우편");
    (JS.utf8 "메시지", JS.utf8 "쪽지");
    (JS.utf8 "채팅", JS.utf8 "대화");
    (JS.utf8 "게임", JS.utf8 "놀이");
    (JS.utf8 "레벨", JS.utf8 "수준");
    (JS.utf8 "스테이지", JS.utf8 "단계");
    (JS.utf8 "캐릭터", JS.utf8 "인물");
    (JS.utf8 "아이템", JS.utf8 "물건");
    (JS.utf8 "미션", JS.utf8 "임무");
    (JS.utf8 "퀘스트", JS.utf8 "과제");
    (JS.utf8 "스킬", JS.utf8 "기술");
    (JS.utf8 "매직", JS.utf8 "마법");
    (JS.utf8 "포인트", JS.utf8 "점수");
    (JS.utf8 "랭킹", JS.utf8 "순위");
    (JS.utf8 "챔피언", JS.utf8 "우승자");
    (JS.utf8 "토너먼트", JS.utf8 "대회");
    (JS.utf8 "이준호", JS.utf8 "중국사람") ].

(** [foreignWordTrie] of the plugin. *)
Definition foreignWordTrie : Trie.Trie := Trie.build foreignWordsData.

Section Lower.

(** [String.prototype.toLowerCase], which the module takes from the
    language. *)
Variable toLowerCase : JSString → JSString.

(** [isForeignWord]: the first entry whose word is the text, case set
    aside, or [None] for [null]. *)
Definition isForeignWord (text : JSString) : option (JSString * JSString) :=
  find (λ fw, bool_decide (toLowerCase fw.1 = toLowerCase text))
    foreignWordsData.

End Lower.

End Data.

(* ===================================================================== *)
(** ** What is asked of the matcher *)
(* ===================================================================== *)

(** A dictionary as the build loop receives it. *)
Abbreviation Dictionary := (list (JSString * JSString)).

(** Each match ends where the next one in the sequence starts, or
    before. *)
Definition NonOverlapping (matches : list Trie.Match) : Prop :=
  ∀ (i : nat) (a b : Trie.Match),
    matches !! i = Some a → matches !! S i = Some b →
    (Trie.end_ a ≤ Trie.start b)%Z.

(** The offsets of a match lie in the text and span one unit or more. *)
Definition WithinText (text : JSString) (m : Trie.Match) : Prop :=
  (0 ≤ Trie.start m < Trie.end_ m ∧ Trie.end_ m ≤ Z.of_nat (length text))%Z.

(** The term [w] is read in [text] from offset [i] on. *)
Definition OccursAt (w text : JSString) (i : nat) : Prop :=
  w `prefix_of` drop i text.

(** No candidate is shorter than a term of the dictionary that is read at
    its start offset. *)
Definition LongestAtStart (data : Dictionary) (text : JSString) : Prop :=
  ∀ (m : Trie.Match) (w r : JSString),
    m ∈ Trie.candidates (Trie.build data) text →
    (w, r) ∈ data →
    OccursAt w text (Z.to_nat (Trie.start m)) →
    (Z.of_nat (length w) ≤ Trie.end_ m - Trie.start m)%Z.

(** An entry the walk of [findAllMatches] can find and record: its term
    has no surrogate pair, so that the iterator of [insert] and the index
    access of the walk read the same items, and its replacement is not
    empty. *)
Definition Matchable (entry : JSString * JSString) : Prop :=
  JS.codePoints entry.1 = JS.units entry.1 ∧ entry.2 ≠ [].

(** A candidate is an entry of the dictionary read at its start offset. *)
Definition CandidatesAreEntries (data : Dictionary) (text : JSString) : Prop :=
  ∀ m : Trie.Match,
    m ∈ Trie.candidates (Trie.build data) text →
    (Trie.word m, Trie.replacement m) ∈ data
    ∧ OccursAt (Trie.word m) text (Z.to_nat (Trie.start m))
    ∧ (Trie.end_ m - Trie.start m)%Z = Z.of_nat (length (Trie.word m)).

(** Wherever a term of the dictionary that is not empty is read, the walk
    records a candidate. *)
Definition OccurrencesAreRecorded (data : Dictionary) (text : JSString)
    : Prop :=
  ∀ (w r : JSString) (i : nat),
    (w, r) ∈ data → w ≠ [] → OccursAt w text i →
    ∃ m : Trie.Match,
      m ∈ Trie.candidates (Trie.build data) text
      ∧ Trie.start m = Z.of_nat i.

(** The candidate at an offset is the longest term of the dictionary
    read there: a term [w] that is not empty, is read at offset [i], and
    is as long as every term read at [i], is the word of a candidate
    that spans it. *)
Definition LongestIsRecorded (data : Dictionary) (text : JSString) : Prop :=
  ∀ (w r : JSString) (i : nat),
    (w, r) ∈ data → w ≠ [] → OccursAt w text i →
    (∀ w' r' : JSString,
       (w', r') ∈ data → OccursAt w' text i → length w' ≤ length w) →
    ∃ m : Trie.Match,
      m ∈ Trie.candidates (Trie.build data) text
      ∧ Trie.start m = Z.of_nat i
      ∧ Trie.end_ m = Z.of_nat (i + length w)
      ∧ Trie.word m = w.

(** A start offset has one candidate at most. *)
Definition OnePerStart (t : Trie.Trie) (text : JSString) : Prop :=
  ∀ m m' : Trie.Match,
    m ∈ Trie.candidates t text → m' ∈ Trie.candidates t text →
    Trie.start m = Trie.start m' → m = m'.

(** The order of the comparator of [removeOverlappingMatches]: [a] may
    stand before [b]. *)
Definition MayPrecede (a b : Trie.Match) : Prop :=
  (Trie.compareMatches a b ≤ 0)%Z.

(** The build loop keeps the empty term out of the trie. *)
Definition EmptyTermRejected (data : Dictionary) : Prop :=
  Trie.search (Trie.build data) [] = false.

(** What the walk records when the items [chars] lead it from [n] to a
    node, and whether [search] succeeds there. *)
Definition recordableAt (n : TrieNode) (chars : list JSString)
    : option (JSString * JSString) :=
  Trie.descend n chars ≫= Trie.recordable.

Definition endAt (n : TrieNode) (chars : list JSString) : bool :=
  match Trie.descend n chars with
  | Some current => TrieNode.isEndOfWord current
  | None => false
  end.

(** What [insert] leaves at the end of the path of an entry, as the walk
    sees it. *)
Definition recorded (w r : JSString) : option (JSString * JSString) :=
  if JS.truthy (Some w) && JS.truthy (Some r) then Some (w, r) else None.

(** The dictionaries of the examples. *)
Definition dict_a_ab : Dictionary :=
  [(JS.lit "a", JS.lit "x"); (JS.lit "ab", JS.lit "y")].

Definition dict_a_ab_empty : Dictionary :=
  [(JS.lit "a", JS.lit "x"); (JS.lit "ab", [])].

Definition dict_surrogates : Dictionary :=
  [([0xD83D%N], JS.lit "x"); ([0xD83D%N; 0xDE00%N], JS.lit "y")].

Definition dict_bb_bc : Dictionary :=
  [(JS.lit "bb", JS.lit "1"); (JS.lit "bc", JS.lit "2")].

Definition dict_coffee : Dictionary := [(JS.lit "coffee", JS.lit "brew")].

(** The candidates of the example of "abbc". *)
Definition match_bb : Trie.Match :=
  {| Trie.start := 1; Trie.end_ := 3;
     Trie.word := JS.lit "bb"; Trie.replacement := JS.lit "1" |}.

Definition match_bc : Trie.Match :=
  {| Trie.start := 2; Trie.end_ := 4;
     Trie.word := JS.lit "bc"; Trie.replacement := JS.lit "2" |}.

(* ===================================================================== *)
(** ** What is asked of the transforms *)
(* ===================================================================== *)

(** Matches that follow one another from offset [from] on within a text
    of length [len], each of them not empty. *)
Fixpoint Chained (from : Z) (matches : list Trie.Match) (len : Z) : Prop :=
  match matches with
  | [] => True
  | m :: matches' =>
      (from ≤ Trie.start m < Trie.end_ m ∧ Trie.end_ m ≤ len)%Z
      ∧ Chained (Trie.end_ m) matches' len
  end.

(** The leaves that the text from offset [pos] on is cut into by the
    matches: the text before each match, if any, the annotated span of
    the match, and the text after the last match, if any. *)
Fixpoint pieces (text : JSString) (pos : nat) (matches : list Trie.Match)
    : list LexicalNode :=
  match matches with
  | [] => if decide (pos < length text) then [TextNode (drop pos text)] else []
  | m :: matches' =>
      let s := Z.to_nat (Trie.start m) in
      (if decide (pos < s) then [TextNode (take (s - pos) (drop pos text))]
       else [])
      ++ ForeignWordNode (Trie.word m) (Trie.replacement m)
         :: pieces text (Z.to_nat (Trie.end_ m)) matches'
  end.

(** The text contents of a sequence of leaves, one after the other. *)
Definition textContent (leaves : list LexicalNode) : JSString :=
  mjoin (omap textOf leaves).

(** The word of a match is the text it covers. *)
Definition CoversItsWord (text : JSString) (m : Trie.Match) : Prop :=
  Trie.word m
  = take (Z.to_nat (Trie.end_ m) - Z.to_nat (Trie.start m))
      (drop (Z.to_nat (Trie.start m)) text).

(** The leaves of the example of "I like coffee a lot". *)
Definition coffee_leaves : list LexicalNode :=
  [ TextNode (JS.lit "I like ");
    ForeignWordNode (JS.lit "coffee") (JS.lit "brew");
    TextNode (JS.lit " a lot") ].

(* ===================================================================== *)
(** ** What is asked of the tracker *)
(* ===================================================================== *)

(** How many times a callback that logs its calls was called with
    [id]. *)
Definition timesCalled (id : JSString) (calls : list JSString) : nat :=
  length (filter (λ x, x = id) calls).

(** A paragraph of words, each in an element of its own that carries the
    given "originid", and the editor state made of that paragraph. *)
Definition originWord (id word : string) : LexicalNode :=
  ElementNode {[ JS.lit "originid" := JS.lit id ]} None
    [TextNode (JS.lit word)].

Definition stateOf (words : list LexicalNode) : LexicalNode :=
  ElementNode ∅ None [ElementNode ∅ None words].

(* ===================================================================== *)
(** ** What is asked of the data-unique pass *)
(* ===================================================================== *)

(** The identifiers [generateUniqueId] returns at its calls number [from]
    to [from + count - 1] of a pass. *)
Definition generatedIds (entropy : nat → Unique.Entropy) (from count : nat)
    : list JSString :=
  (λ k, Unique.generateUniqueId Unique.Prefix_UNIQUE (entropy k))
    <$> seq from count.


(** Every value of a block is in the set [existingValues]. *)
Definition Collected (blocks : list LexicalNode)
    (existingValues : list JSString) : Prop :=
  ∀ block value,
    block ∈ blocks → Unique.getUniqueAttributeValue block = Some value →
    value ≠ [] → value ∈ existingValues.

(** A top-level block with a DOM element, carrying the given data-unique
    value if any, and the tree of a sequence of blocks. *)
Definition block (value : option string) : LexicalNode :=
  ElementNode ∅
    (Some (match value with
           | Some v => {[ Unique.DATA_UNIQUE_ATTRIBUTE := JS.lit v ]}
           | None => ∅
           end)) [].

Definition rootOf (blocks : list LexicalNode) : LexicalNode :=
  ElementNode ∅ None blocks.





Definition tickingEntropy (k : nat) : Unique.Entropy :=
  {| Unique.now := 1700000000000 + N.of_nat k;
     Unique.random := JS.lit "k3x9q2m1z" |}.

(* ===================================================================== *)
(** ** What more is shown of the trie *)
(* ===================================================================== *)

(** What [getReplacement] returns at the node the items [chars] lead to
    from [n]. *)
Definition replacementAt (n : TrieNode) (chars : list JSString)
    : option JSString :=
  match Trie.descend n chars with
  | Some current =>
      if TrieNode.isEndOfWord current
         && JS.truthy (TrieNode.replacement current)
      then TrieNode.replacement current else None
  | None => None
  end.

(** What [getReplacement] returns for a term just inserted with
    replacement [r]. *)
Definition stored (r : JSString) : option JSString :=
  if JS.truthy (Some r) then Some r else None.

(** The replacement of the last entry of the dictionary for the term
    [w], if there is one. *)
Definition lastReplacement (data : Dictionary) (w : JSString)
    : option JSString :=
  snd <$> last (filter (λ entry, entry.1 = w) data).

(** The terms of a dictionary. *)
Definition terms (data : Dictionary) : list JSString := fst <$> data.

(** The candidates leave no gap: none starts at or after the cursor and
    before the next match, and none starts after the last match. *)
Fixpoint NoGaps (candidates : list Trie.Match) (cursor : Z)
    (matches : list Trie.Match) : Prop :=
  match matches with
  | [] => ∀ c, c ∈ candidates → (Trie.start c < cursor)%Z
  | m :: matches' =>
      (∀ c, c ∈ candidates → (cursor ≤ Trie.start c)%Z →
            (Trie.start m ≤ Trie.start c)%Z)
      ∧ NoGaps candidates (Trie.end_ m) matches'
  end.

(* ===================================================================== *)
(** ** What more is shown of the data-unique pass *)
(* ===================================================================== *)

(** A node without the data-unique attribute of its DOM element. *)
Definition withoutUnique (node : LexicalNode) : LexicalNode :=
  match node with
  | ElementNode attributes (Some dom) children =>
      ElementNode attributes
        (Some (delete Unique.DATA_UNIQUE_ATTRIBUTE dom)) children
  | _ => node
  end.

(** The characters "0" to "9". *)
Definition isDigit (u : N) : Prop := (48 ≤ u ≤ 57)%N.

(* ===================================================================== *)
(** ** The sweep and the sort *)
(* ===================================================================== *)

Section Sweep.

Implicit Types (m a b : Trie.Match) (l sorted : list Trie.Match) (e : Z).

Lemma sweep_subset sorted e m :
  m ∈ Trie.sweep sorted e → m ∈ sorted.
Proof.
  revert e. induction sorted as [|x sorted IH]; intros e; simpl.
  - by intros ?%elem_of_nil.
  - destruct (Trie.start x >=? e)%Z.
    + intros [->|H]%elem_of_cons; [left|right; eauto].
    + intros H. right. eauto.
Qed.

Lemma sweep_head sorted e m :
  head (Trie.sweep sorted e) = Some m → (e ≤ Trie.start m)%Z.
Proof.
  revert e. induction sorted as [|x sorted IH]; intros e; simpl; [done|].
  destruct (Trie.start x >=? e)%Z eqn:Hge; simpl.
  - intros [= <-]. lia.
  - apply IH.
Qed.

Lemma sweep_non_overlapping sorted e :
  NonOverlapping (Trie.sweep sorted e).
Proof.
  revert e. induction sorted as [|x sorted IH]; intros e; simpl.
  - intros i a b Ha. by rewrite lookup_nil in Ha.
  - destruct (Trie.start x >=? e)%Z; [|apply IH].
    intros [|i] a b; simpl.
    + intros [= <-] Hb. apply (sweep_head sorted). by rewrite head_lookup.
    + apply IH.
Qed.

Lemma insertSorted_elem m a sorted :
  m ∈ Trie.insertSorted a sorted ↔ m = a ∨ m ∈ sorted.
Proof.
  induction sorted as [|b sorted IH]; simpl.
  - rewrite list_elem_of_singleton, elem_of_nil. tauto.
  - destruct (Trie.compareMatches a b <=? 0)%Z.
    + by rewrite elem_of_cons.
    + rewrite !elem_of_cons, IH. tauto.
Qed.

Lemma sort_elem m l : m ∈ Trie.sort l ↔ m ∈ l.
Proof.
  induction l as [|a l IH]; simpl; [done|].
  rewrite insertSorted_elem, elem_of_cons, IH. tauto.
Qed.

Lemma MayPrecede_spec a b :
  MayPrecede a b ↔
  (Trie.start a < Trie.start b
   ∨ (Trie.start a = Trie.start b
      ∧ Trie.end_ b - Trie.start b ≤ Trie.end_ a - Trie.start a))%Z.
Proof.
  unfold MayPrecede, Trie.compareMatches.
  destruct (decide (Trie.start a ≠ Trie.start b)); lia.
Qed.

Lemma insertSorted_Permutation a sorted :
  Trie.insertSorted a sorted ≡ₚ a :: sorted.
Proof.
  induction sorted as [|b sorted IH]; simpl; [done|].
  destruct (Trie.compareMatches a b <=? 0)%Z; [done|].
  rewrite IH. apply Permutation_swap.
Qed.

(** The sort keeps the matches it is given, all of them and no other. *)
Lemma sort_Permutation l : Trie.sort l ≡ₚ l.
Proof.
  induction l as [|a l IH]; simpl; [done|].
  by rewrite insertSorted_Permutation, IH.
Qed.



(** The sort leaves a sequence that is in order as it is. *)
Lemma sort_of_Sorted l : Sorted MayPrecede l → Trie.sort l = l.
Proof.
  induction 1 as [|a l Hs IH Ha]; simpl; [done|].
  rewrite IH. destruct Ha as [|b l Hab]; simpl; [done|].
  unfold MayPrecede in Hab.
  destruct (Trie.compareMatches a b <=? 0)%Z eqn:Hle; [done|lia].
Qed.

Lemma removeOverlappingMatches_subset l m :
  m ∈ Trie.removeOverlappingMatches l → m ∈ l.
Proof.
  destruct l as [|a l]; [done|].
  unfold Trie.removeOverlappingMatches.
  intros H%sweep_subset. by apply sort_elem.
Qed.

Lemma removeOverlappingMatches_non_overlapping l :
  NonOverlapping (Trie.removeOverlappingMatches l).
Proof.
  destruct l as [|a l].
  - intros i x y Hx. simpl in Hx. by rewrite lookup_nil in Hx.
  - apply sweep_non_overlapping.
Qed.

End Sweep.

(* ===================================================================== *)
(** ** The walk *)
(* ===================================================================== *)

Section Walk.

Implicit Types (n : TrieNode) (rest text : JSString) (j : Z)
  (last : option Trie.LastMatch) (lm : Trie.LastMatch).

(** A walk returns what it was given or a match that ends after its
    first offset and within the text. *)
Lemma walk_bounds n rest j last lm :
  Trie.walk n rest j last = Some lm →
  last = Some lm
  ∨ (j < Trie.last_end lm ≤ j + Z.of_nat (length rest))%Z.
Proof.
  revert n j last. induction rest as [|c rest IH]; intros n j last; simpl.
  - auto.
  - destruct (TrieNode.children n !! [c]) as [next|]; [|auto].
    intros [Hl|Hl]%IH.
    + destruct (Trie.recordable next) as [[w r]|]; [|auto].
      injection Hl as <-. simpl. right. lia.
    + right. lia.
Qed.

Lemma walk_is_Some n rest j last :
  is_Some last → is_Some (Trie.walk n rest j last).
Proof.
  revert n j last. induction rest as [|c rest IH]; intros n j last Hl; simpl.
  - done.
  - destruct (TrieNode.children n !! [c]) as [next|]; [|done].
    apply IH. by destruct (Trie.recordable next) as [[w r]|].
Qed.

Lemma matchAt_within t text (i : nat) m :
  Trie.matchAt t text i = Some m →
  Trie.start m = Z.of_nat i ∧ WithinText text m.
Proof.
  unfold Trie.matchAt, WithinText.
  destruct (Trie.walk _ _ _ _) as [lm|] eqn:Hw; [|done].
  intros [= <-]. simpl. split; [done|].
  apply walk_bounds in Hw as [?|Hw]; [done|].
  rewrite length_drop in Hw. lia.
Qed.

Lemma candidates_elem t text m :
  m ∈ Trie.candidates t text ↔
  ∃ i : nat, i < length text ∧ Trie.matchAt t text i = Some m.
Proof.
  unfold Trie.candidates. rewrite list_elem_of_omap. split.
  - intros (i & Hi%elem_of_seq & Hm). exists i. split; [lia|done].
  - intros (i & Hi & Hm). exists i. split; [|done].
    apply elem_of_seq. lia.
Qed.

Lemma omap_matchAt_Sorted t text (starts : list nat) :
  StronglySorted lt starts →
  StronglySorted (λ a b, (Trie.start a < Trie.start b)%Z)
    (omap (Trie.matchAt t text) starts).
Proof.
  induction 1 as [|i starts Hs IH Hi]; simpl; [constructor|].
  destruct (Trie.matchAt t text i) as [m|] eqn:Hm; [|done].
  constructor; [done|].
  apply Forall_forall. intros m' (i' & Hi' & Hm')%list_elem_of_omap.
  rewrite Forall_forall in Hi. specialize (Hi i' Hi').
  apply matchAt_within in Hm as [-> _]. apply matchAt_within in Hm' as [-> _].
  lia.
Qed.

(** The candidates come out of the outer loop by increasing start. *)
Lemma candidates_Sorted t text :
  StronglySorted (λ a b, (Trie.start a < Trie.start b)%Z)
    (Trie.candidates t text).
Proof.
  apply omap_matchAt_Sorted. generalize 0 as from.
  induction (length text) as [|n IH]; intros from; simpl; [constructor|].
  constructor; [apply IH|].
  apply Forall_forall. intros i Hi%elem_of_seq. lia.
Qed.

Lemma candidates_MayPrecede t text :
  Sorted MayPrecede (Trie.candidates t text).
Proof.
  induction (candidates_Sorted t text) as [|a l Hl IH Ha]; constructor; [done|].
  destruct Ha as [|b l Hab _]; constructor.
  apply MayPrecede_spec. lia.
Qed.

(** Hence the sort has nothing to move, and [findAllMatches] is the sweep
    of the candidates. *)
Lemma findAllMatches_sweep t text :
  Trie.findAllMatches t text = Trie.sweep (Trie.candidates t text) (-1).
Proof.
  unfold Trie.findAllMatches, Trie.removeOverlappingMatches.
  destruct (Trie.candidates t text) as [|a l] eqn:Hc; [done|].
  rewrite sort_of_Sorted; [done|].
  rewrite <-Hc. apply candidates_MayPrecede.
Qed.

Lemma findAllMatches_candidate t text m :
  m ∈ Trie.findAllMatches t text → m ∈ Trie.candidates t text.
Proof. apply removeOverlappingMatches_subset. Qed.

End Walk.

(** C1.  Whatever the trie, hence whatever dictionary it was built from,
    and whatever the text, the matches [findAllMatches] returns do not
    overlap: each one in the returned order ends at or before the start
    of the next. *)
Theorem findAllMatches_non_overlapping (t : Trie.Trie) (text : JSString) :
  NonOverlapping (Trie.findAllMatches t text).
Proof. apply removeOverlappingMatches_non_overlapping. Qed.

(** Two matches that touch: "a" at [0, 1) and "ab" at [1, 3) in "aab". *)
Example findAllMatches_touching :
  Trie.findAllMatches (Trie.build dict_a_ab) (JS.lit "aab")
  = [ {| Trie.start := 0; Trie.end_ := 1;
         Trie.word := JS.lit "a"; Trie.replacement := JS.lit "x" |};
      {| Trie.start := 1; Trie.end_ := 3;
         Trie.word := JS.lit "ab"; Trie.replacement := JS.lit "y" |} ].
Proof. by vm_compute. Qed.

(* ===================================================================== *)
(** ** Strings *)
(* ===================================================================== *)

Section Strings.

Implicit Types (s w : JSString).

Lemma concat_codePoints s : concat (JS.codePoints s) = s.
Proof.
  assert (∀ (k : nat) s, length s ≤ k → concat (JS.codePoints s) = s) as H.
  { intros k. induction k as [|k IH]; intros [|u [|v rest]] Hk;
      simpl in *; try done; try lia.
    destruct (JS.isLeadSurrogate u && JS.isTrailSurrogate v); simpl.
    - rewrite IH by lia. done.
    - f_equal. apply (IH (v :: rest)). simpl. lia. }
  by apply (H (length s)).
Qed.

Lemma concat_units s : concat (JS.units s) = s.
Proof. induction s as [|u s IH]; simpl; [done|]. by rewrite IH. Qed.

Lemma codePoints_inj s w : JS.codePoints s = JS.codePoints w → s = w.
Proof.
  intros H. rewrite <-(concat_codePoints s), <-(concat_codePoints w).
  by rewrite H.
Qed.

Lemma codePoints_units s w : JS.codePoints w = JS.units s → w = s.
Proof.
  intros H. rewrite <-(concat_codePoints w), <-(concat_units s).
  by rewrite H.
Qed.

(** A string without a lead surrogate, such as one of ASCII or Hangul
    characters, is read alike by the iterator and by index access. *)
Lemma codePoints_no_surrogate s :
  Forall (λ u, JS.isLeadSurrogate u = false) s → JS.codePoints s = JS.units s.
Proof.
  induction 1 as [|u s Hu Hs IH]; [done|].
  simpl. rewrite Hu. simpl. destruct s; [done|]. by rewrite IH.
Qed.

End Strings.

(* ===================================================================== *)
(** ** What [insert] does to the paths of a trie *)
(* ===================================================================== *)

Section Insert.

Implicit Types (n : TrieNode) (cs chars : list JSString) (w r : JSString).

Lemma recordableAt_createNode cs : recordableAt Trie.createNode cs = None.
Proof. by destruct cs. Qed.

Lemma endAt_createNode cs : endAt Trie.createNode cs = false.
Proof. by destruct cs. Qed.

Lemma recordableAt_cons n c cs :
  recordableAt n (c :: cs)
  = match TrieNode.children n !! c with
    | Some next => recordableAt next cs
    | None => None
    end.
Proof.
  unfold recordableAt. simpl. by destruct (TrieNode.children n !! c).
Qed.

Lemma endAt_cons n c cs :
  endAt n (c :: cs)
  = match TrieNode.children n !! c with
    | Some next => endAt next cs
    | None => false
    end.
Proof. unfold endAt. simpl. by destruct (TrieNode.children n !! c). Qed.

(** [insert] changes what the walk records at the path of the entry and
    nowhere else. *)
Lemma recordableAt_insertFrom n chars w r cs :
  recordableAt (Trie.insertFrom n chars w r) cs
  = if decide (cs = chars) then recorded w r else recordableAt n cs.
Proof.
  revert n cs. induction chars as [|c chars IH]; intros n cs.
  - destruct cs as [|c' cs].
    + rewrite decide_True by done.
      unfold recordableAt, recorded, Trie.recordable. simpl.
      by destruct w, r.
    + rewrite decide_False by done. by rewrite !recordableAt_cons.
  - destruct cs as [|c' cs].
    + rewrite decide_False by done. by destruct n.
    + simpl Trie.insertFrom. rewrite !recordableAt_cons. simpl.
      destruct (decide (c' = c)) as [->|Hc].
      * rewrite lookup_insert_eq, IH.
        destruct (decide (cs = chars)) as [->|Hcs].
        { by rewrite decide_True. }
        rewrite decide_False by congruence.
        destruct (TrieNode.children n !! c); [done|].
        apply recordableAt_createNode.
      * rewrite lookup_insert_ne by done.
        by rewrite decide_False by congruence.
Qed.

(** [insert] makes [search] succeed at the path of the entry and changes
    it nowhere else. *)
Lemma endAt_insertFrom n chars w r cs :
  endAt (Trie.insertFrom n chars w r) cs
  = bool_decide (cs = chars) || endAt n cs.
Proof.
  revert n cs. induction chars as [|c chars IH]; intros n cs.
  - destruct cs as [|c' cs]; [done|].
    rewrite bool_decide_eq_false_2 by done. by rewrite !endAt_cons.
  - destruct cs as [|c' cs].
    + rewrite bool_decide_eq_false_2 by done. by destruct n.
    + simpl Trie.insertFrom. rewrite !endAt_cons. simpl.
      destruct (decide (c' = c)) as [->|Hc].
      * rewrite lookup_insert_eq, IH.
        destruct (decide (cs = chars)) as [->|Hcs].
        { by rewrite !bool_decide_eq_true_2. }
        rewrite !bool_decide_eq_false_2 by congruence. simpl.
        destruct (TrieNode.children n !! c); [done|].
        apply endAt_createNode.
      * rewrite lookup_insert_ne by done.
        by rewrite bool_decide_eq_false_2 by congruence.
Qed.

End Insert.

(* ===================================================================== *)
(** ** The trie of a dictionary *)
(* ===================================================================== *)

Section Build.

Implicit Types (data : Dictionary) (cs : list JSString) (w r : JSString).

Lemma recorded_Some w r w' r' :
  recorded w r = Some (w', r') ↔ w' = w ∧ r' = r ∧ w ≠ [] ∧ r ≠ [].
Proof.
  unfold recorded. destruct w, r; simpl; split;
    try done; try (intros (_ & _ & ? & ?); done).
  - intros [= <- <-]. done.
  - intros (-> & -> & _). done.
Qed.

Lemma build_snoc data w r :
  Trie.build (data ++ [(w, r)]) = Trie.insert (Trie.build data) w r.
Proof. unfold Trie.build. by rewrite foldl_snoc. Qed.

Lemma recordableAt_build_snoc data w r cs :
  recordableAt (Trie.root (Trie.build (data ++ [(w, r)]))) cs
  = if decide (cs = JS.codePoints w) then recorded w r
    else recordableAt (Trie.root (Trie.build data)) cs.
Proof. rewrite build_snoc. apply recordableAt_insertFrom. Qed.

(** What the walk records in the trie of a dictionary is an entry of
    the dictionary, at the path of its term. *)
Lemma recordableAt_build_sound data cs w r :
  recordableAt (Trie.root (Trie.build data)) cs = Some (w, r) →
  (w, r) ∈ data ∧ JS.codePoints w = cs ∧ w ≠ [] ∧ r ≠ [].
Proof.
  induction data as [|[w0 r0] data IH] using rev_ind.
  - by rewrite recordableAt_createNode.
  - rewrite recordableAt_build_snoc.
    destruct (decide (cs = JS.codePoints w0)) as [->|Hcs].
    + intros (-> & -> & ? & ?)%recorded_Some.
      split; [|done]. apply elem_of_app. right. by left.
    + intros (? & ? & ? & ?)%IH. split; [|done].
      apply elem_of_app. by left.
Qed.

(** When no entry has an empty replacement, the walk records something
    for every term that is not empty, at the path of the term. *)
Lemma recordableAt_build_complete data w r :
  (∀ e, e ∈ data → e.2 ≠ []) → (w, r) ∈ data → w ≠ [] →
  ∃ r', recordableAt (Trie.root (Trie.build data)) (JS.codePoints w)
        = Some (w, r').
Proof.
  intros Hdata Hin Hw. revert Hdata Hin.
  induction data as [|[w0 r0] data IH] using rev_ind; intros Hdata Hin.
  - by apply elem_of_nil in Hin.
  - rewrite recordableAt_build_snoc.
    assert (r0 ≠ []) as Hr0.
    { apply (Hdata (w0, r0)), elem_of_app. right. by left. }
    destruct (decide (JS.codePoints w = JS.codePoints w0)) as [Heq|Hne].
    + apply codePoints_inj in Heq as <-. exists r0.
      by apply recorded_Some.
    + apply IH.
      * intros e He. apply Hdata, elem_of_app. by left.
      * apply elem_of_app in Hin as [Hin|Hin]; [done|].
        apply list_elem_of_singleton in Hin as [= -> ->]. done.
Qed.

Lemma search_endAt t w :
  Trie.search t w = endAt (Trie.root t) (JS.codePoints w).
Proof. unfold Trie.search, endAt. by destruct (Trie.descend _ _). Qed.

(** [search] succeeds exactly on the terms of the dictionary. *)
Lemma search_build data w :
  Trie.search (Trie.build data) w = true ↔ ∃ r, (w, r) ∈ data.
Proof.
  rewrite search_endAt.
  induction data as [|[w0 r0] data IH] using rev_ind.
  - rewrite endAt_createNode. split; [done|].
    intros [r Hr]. by apply elem_of_nil in Hr.
  - rewrite build_snoc. simpl. rewrite endAt_insertFrom.
    rewrite orb_true_iff, bool_decide_eq_true, IH. split.
    + intros [Heq%codePoints_inj|[r Hr]].
      * subst. exists r0. apply elem_of_app. right. by left.
      * exists r. apply elem_of_app. by left.
    + intros [r [Hr|Hr]%elem_of_app].
      * right. by exists r.
      * apply list_elem_of_singleton in Hr as [= -> ->]. by left.
Qed.

End Build.

(* ===================================================================== *)
(** ** What the walk records *)
(* ===================================================================== *)

Section WalkRecords.

Implicit Types (n : TrieNode) (rest text : JSString) (j : Z)
  (last : option Trie.LastMatch) (lm : Trie.LastMatch).

Lemma units_take_cons (k : nat) c rest :
  JS.units (take (S k) (c :: rest)) = [c] :: JS.units (take k rest).
Proof. done. Qed.

(** The match a walk returns, unless it is the one given to it, was
    recorded at a node reached by the [k] first items of the text. *)
Lemma walk_sound n rest j last lm :
  Trie.walk n rest j last = Some lm →
  last = Some lm
  ∨ ∃ k : nat,
      1 ≤ k ≤ length rest
      ∧ Trie.last_end lm = (j + Z.of_nat k)%Z
      ∧ recordableAt n (JS.units (take k rest))
        = Some (Trie.last_word lm, Trie.last_replacement lm).
Proof.
  revert n j last. induction rest as [|c rest IH]; intros n j last; simpl.
  - auto.
  - destruct (TrieNode.children n !! [c]) as [next|] eqn:Hc; [|auto].
    intros [Hl|(k & Hk & He & Hr)]%IH.
    + destruct (Trie.recordable next) as [[w r]|] eqn:Hn; [|auto].
      injection Hl as <-. right. exists 1. simpl.
      split; [lia|]. split; [done|].
      rewrite recordableAt_cons, Hc. by destruct rest.
    + right. exists (S k). split; [lia|]. split; [lia|].
      by rewrite units_take_cons, recordableAt_cons, Hc.
Qed.

(** A walk returns a match that ends at or after every node on its way
    at which something is recorded. *)
Lemma walk_longest n rest j last (k : nat) w r :
  1 ≤ k ≤ length rest →
  recordableAt n (JS.units (take k rest)) = Some (w, r) →
  ∃ lm, Trie.walk n rest j last = Some lm
        ∧ (j + Z.of_nat k ≤ Trie.last_end lm)%Z.
Proof.
  revert n j last k.
  induction rest as [|c rest IH]; intros n j last k Hk; simpl in *; [lia|].
  destruct k as [|k]; [lia|].
  rewrite units_take_cons, recordableAt_cons.
  destruct (TrieNode.children n !! [c]) as [next|] eqn:Hc; [|done].
  destruct k as [|k].
  - rewrite take_0. unfold recordableAt. simpl. intros ->.
    destruct (walk_is_Some next rest (j + 1)
                (Some {| Trie.last_end := (j + 1)%Z; Trie.last_word := w;
                         Trie.last_replacement := r |}))
      as [lm Hlm]; [done|].
    exists lm. split; [done|].
    apply walk_bounds in Hlm as [[= <-]|Hlm]; simpl; lia.
  - intros Hr.
    destruct (IH next (j + 1)%Z
                (match Trie.recordable next with
                 | Some (w0, r0) =>
                     Some {| Trie.last_end := (j + 1)%Z; Trie.last_word := w0;
                             Trie.last_replacement := r0 |}
                 | None => last
                 end) (S k)) as (lm & Hlm & Hle); [lia|done|].
    exists lm. split; [done|]. lia.
Qed.

End WalkRecords.

(* ===================================================================== *)
(** ** Candidates *)
(* ===================================================================== *)

Section Candidates.

Implicit Types (data : Dictionary) (text w r : JSString) (m : Trie.Match).

Lemma matchAt_walk t text (i : nat) m :
  Trie.matchAt t text i = Some m →
  ∃ lm, Trie.walk (Trie.root t) (drop i text) (Z.of_nat i) None = Some lm
        ∧ Trie.start m = Z.of_nat i
        ∧ Trie.end_ m = Trie.last_end lm
        ∧ Trie.word m = Trie.last_word lm
        ∧ Trie.replacement m = Trie.last_replacement lm.
Proof.
  unfold Trie.matchAt. destruct (Trie.walk _ _ _ _) as [lm|]; [|done].
  intros [= <-]. by exists lm.
Qed.

Lemma candidates_one_per_start t text : OnePerStart t text.
Proof.
  intros m m' (i & _ & Hm)%candidates_elem (i' & _ & Hm')%candidates_elem Heq.
  pose proof (matchAt_within _ _ _ _ Hm) as [Hs _].
  pose proof (matchAt_within _ _ _ _ Hm') as [Hs' _].
  assert (i = i') as -> by lia. congruence.
Qed.

Lemma candidates_are_entries data text : CandidatesAreEntries data text.
Proof.
  intros m (i & Hi & Hm)%candidates_elem.
  apply matchAt_walk in Hm as (lm & Hw & Hs & He & Hword & Hrepl).
  apply walk_sound in Hw as [?|(k & Hk & Hend & Hrec)]; [done|].
  apply recordableAt_build_sound in Hrec as (Hin & Hcp & _ & _).
  apply codePoints_units in Hcp.
  rewrite Hword, Hrepl, Hs, Nat2Z.id, He. split; [done|].
  rewrite Hcp. split.
  - apply prefix_take.
  - rewrite length_take. lia.
Qed.

Lemma candidates_longest data text :
  Forall Matchable data → LongestAtStart data text.
Proof.
  intros Hdata m w r (i & Hi & Hm)%candidates_elem Hin Hocc.
  pose proof (matchAt_within _ _ _ _ Hm) as [Hs Hwithin].
  rewrite Hs, Nat2Z.id in Hocc. destruct Hocc as [tail Htail].
  destruct (decide (w = [])) as [->|Hw].
  { unfold WithinText in Hwithin. simpl. lia. }
  rewrite Forall_forall in Hdata.
  destruct (recordableAt_build_complete data w r) as [r' Hrec];
    [intros e He; by apply Hdata|done|done|].
  destruct (Hdata _ Hin) as [Hcp _]. simpl in Hcp.
  assert (take (length w) (drop i text) = w) as Htake.
  { rewrite Htail. by rewrite take_app_length. }
  rewrite Hcp in Hrec.
  apply matchAt_walk in Hm as (lm & Hwalk & _ & He & _).
  destruct (walk_longest (Trie.root (Trie.build data)) (drop i text)
              (Z.of_nat i) None (length w) w r') as (lm' & Hwalk' & Hle);
    [|by rewrite Htake|].
  { split.
    - destruct w; [done|simpl; lia].
    - rewrite Htail, length_app. lia. }
  rewrite Hwalk in Hwalk'. injection Hwalk' as <-. lia.
Qed.

Lemma candidates_complete data text :
  Forall Matchable data → OccurrencesAreRecorded data text.
Proof.
  intros Hdata w r i Hin Hw [tail Htail].
  rewrite Forall_forall in Hdata.
  destruct (recordableAt_build_complete data w r) as [r' Hrec];
    [intros e He; by apply Hdata|done|done|].
  destruct (Hdata _ Hin) as [Hcp _]. simpl in Hcp.
  assert (take (length w) (drop i text) = w) as Htake.
  { rewrite Htail. by rewrite take_app_length. }
  assert (0 < length w) as Hlen by (destruct w; [done|simpl; lia]).
  assert (length w ≤ length (drop i text)) as Hfits.
  { rewrite Htail, length_app. lia. }
  assert (i < length text) as Hi.
  { rewrite length_drop in Hfits. lia. }
  rewrite Hcp in Hrec.
  destruct (walk_longest (Trie.root (Trie.build data)) (drop i text)
              (Z.of_nat i) None (length w) w r') as (lm & Hwalk & _);
    [done|by rewrite Htake|].
  eexists. split.
  - apply candidates_elem. exists i. split; [done|].
    unfold Trie.matchAt. rewrite Hwalk. reflexivity.
  - reflexivity.
Qed.

Lemma candidates_longest_recorded data text :
  Forall Matchable data → LongestIsRecorded data text.
Proof.
  intros Hdata w r i Hin Hw Hocc Hmax.
  destruct (candidates_complete data text Hdata w r i) as (m & Hm & Hs);
    [done..|].
  destruct (candidates_are_entries data text m Hm) as (Hentry & Hocc' & Hlen).
  pose proof (candidates_longest data text Hdata m w r Hm Hin) as Hle.
  rewrite Hs, Nat2Z.id in Hocc', Hle. specialize (Hle Hocc).
  specialize (Hmax _ _ Hentry Hocc').
  assert (length (Trie.word m) = length w) as Hsame by lia.
  assert (Trie.word m = w) as Hword.
  { destruct Hocc as [tail Htail], Hocc' as [tail' Htail'].
    rewrite Htail in Htail'. symmetry in Htail'.
    by apply app_inj_1 in Htail' as [? _]. }
  exists m. repeat split; [done|done| |done]. lia.
Qed.

End Candidates.

(** C2, amended.  With the terms "a" and "ab" inserted, in either order,
    [findAllMatches("ab")] returns the one match of "ab" at [0, 2).  For
    a dictionary whose terms have no surrogate pair and whose replacements
    are not empty, and for every text: a start offset has one candidate at
    most; every candidate is an entry of the dictionary read at that
    offset; no term of the dictionary read at that offset is longer than
    the candidate; wherever a term that is not empty is read, a candidate
    is recorded; and the longest term read at an offset is the word of
    the candidate recorded there, which spans it. *)
Theorem longest_at_start (data : Dictionary) (text : JSString) :
  Forall Matchable data →
  Trie.findAllMatches (Trie.build dict_a_ab) (JS.lit "ab")
  = [ {| Trie.start := 0; Trie.end_ := 2;
         Trie.word := JS.lit "ab"; Trie.replacement := JS.lit "y" |} ]
  ∧ Trie.findAllMatches (Trie.build (reverse dict_a_ab)) (JS.lit "ab")
    = [ {| Trie.start := 0; Trie.end_ := 2;
           Trie.word := JS.lit "ab"; Trie.replacement := JS.lit "y" |} ]
  ∧ OnePerStart (Trie.build data) text
  ∧ CandidatesAreEntries data text
  ∧ LongestAtStart data text
  ∧ OccurrencesAreRecorded data text
  ∧ LongestIsRecorded data text.
Proof.
  intros Hdata. split; [by vm_compute|]. split; [by vm_compute|].
  split; [apply candidates_one_per_start|].
  split; [apply candidates_are_entries|].
  split; [by apply candidates_longest|].
  split; [by apply candidates_complete|].
  by apply candidates_longest_recorded.
Qed.

(** The dictionary of the example meets the condition; "ab" is the
    candidate at offset 0 of "ab" and no term read there is longer. *)
Lemma longest_at_start_witness :
  Forall Matchable dict_a_ab
  ∧ LongestAtStart dict_a_ab (JS.lit "ab")
  ∧ LongestIsRecorded dict_a_ab (JS.lit "ab").
Proof.
  assert (Forall Matchable dict_a_ab) as H.
  { repeat constructor; discriminate. }
  split; [exact H|].
  split; apply (longest_at_start dict_a_ab (JS.lit "ab") H).
Defined.

(** C2 as stated fails: the entry "ab" with an empty replacement is never
    recorded, so that the candidate at offset 0 of "ab" is the shorter
    "a". *)
Lemma longest_at_start_fails_on_empty_replacement :
  Trie.findAllMatches (Trie.build dict_a_ab_empty) (JS.lit "ab")
  = [ {| Trie.start := 0; Trie.end_ := 1;
         Trie.word := JS.lit "a"; Trie.replacement := JS.lit "x" |} ]
  ∧ ¬ LongestAtStart dict_a_ab_empty (JS.lit "ab").
Proof.
  split; [by vm_compute|].
  intros H.
  specialize (H {| Trie.start := 0; Trie.end_ := 1;
                   Trie.word := JS.lit "a"; Trie.replacement := JS.lit "x" |}
                (JS.lit "ab") []).
  simpl in H. enough (2 ≤ 1 - 0)%Z by lia. apply H.
  - vm_compute. left.
  - right. left.
  - by exists [].
Qed.

(** The same with a term that is one surrogate pair: [insert] files it
    under one item, the walk reads two, and the candidate is the lone lead
    surrogate. *)
Lemma longest_at_start_fails_on_surrogate_pair :
  ¬ LongestAtStart dict_surrogates [0xD83D%N; 0xDE00%N].
Proof.
  intros H.
  specialize (H {| Trie.start := 0; Trie.end_ := 1;
                   Trie.word := [0xD83D%N]; Trie.replacement := JS.lit "x" |}
                [0xD83D%N; 0xDE00%N] (JS.lit "y")).
  simpl in H. enough (2 ≤ 1 - 0)%Z by lia. apply H.
  - vm_compute. left.
  - right. left.
  - by exists [].
Qed.

(** C3.  With the terms "bb" and "bc", the candidates in "abbc" are "bb"
    at [1, 3) and "bc" at [2, 4); the sweep accepts the first, which moves
    [lastEnd] to 3, and drops the second, whose start 2 is below 3, so
    that [findAllMatches] returns the match of "bb" alone.  The order of
    the two insertions does not matter. *)
Theorem earliest_start_wins :
  Trie.candidates (Trie.build dict_bb_bc) (JS.lit "abbc") = [match_bb; match_bc]
  ∧ Trie.sweep [match_bb; match_bc] (-1) = match_bb :: Trie.sweep [match_bc] 3
  ∧ Trie.sweep [match_bc] 3 = []
  ∧ Trie.findAllMatches (Trie.build dict_bb_bc) (JS.lit "abbc") = [match_bb]
  ∧ Trie.findAllMatches (Trie.build (reverse dict_bb_bc)) (JS.lit "abbc")
    = [match_bb].
Proof. repeat split; by vm_compute. Qed.

(** C10 as stated fails: the build loop takes the empty term, and
    [search] finds it afterwards. *)
Lemma empty_term_is_accepted : ¬ EmptyTermRejected [([], JS.lit "x")].
Proof. by vm_compute. Qed.

(** C10, amended.  [insert] turns no term away: after the empty term is
    inserted, at any time, [search] succeeds on it.  Whatever the trie,
    every match [findAllMatches] returns has 0 <= start < end <=
    text.length, so that no match is empty. *)
Theorem matches_within_text (t : Trie.Trie) (r text : JSString)
    (m : Trie.Match) :
  m ∈ Trie.findAllMatches t text →
  Trie.search (Trie.insert t [] r) [] = true ∧ WithinText text m.
Proof.
  intros Hm. split; [done|].
  apply findAllMatches_candidate, candidates_elem in Hm as (i & _ & Hm).
  by apply matchAt_within in Hm as [_ ?].
Qed.

Lemma matches_within_text_witness :
  WithinText (JS.lit "a")
    {| Trie.start := 0; Trie.end_ := 1;
       Trie.word := JS.lit "a"; Trie.replacement := JS.lit "x" |}.
Proof.
  apply (matches_within_text
           (Trie.build [([], JS.lit "x"); (JS.lit "a", JS.lit "x")])
           (JS.lit "x") (JS.lit "a")).
  vm_compute. left.
Defined.

(* ===================================================================== *)
(** ** The transforms *)
(* ===================================================================== *)

Section Transforms.

Implicit Types (trie : Trie.Trie) (node tree : LexicalNode)
  (sibs : list LexicalNode) (text repl : JSString).

(** Induction on a tree, with the property at hand for every child of
    an element. *)
Lemma LexicalNode_tree_ind (P : LexicalNode → Prop) :
  (∀ text, P (TextNode text)) →
  (∀ text repl, P (ForeignWordNode text repl)) →
  P LeafNode →
  (∀ attributes dom children,
      Forall P children → P (ElementNode attributes dom children)) →
  ∀ node, P node.
Proof.
  intros Htext Hforeign Hleaf Helement.
  fix IH 1. intros [text|text repl| |attributes dom children].
  - apply Htext.
  - apply Hforeign.
  - apply Hleaf.
  - apply Helement. induction children as [|child children IHc].
    + constructor.
    + constructor; [apply IH|apply IHc].
Qed.

Lemma foreignWordTransform_span trie text repl :
  Span.foreignWordTransform trie (ForeignWordNode text repl)
  = if Trie.search trie text then ForeignWordNode text repl
    else TextNode text.
Proof. simpl. by destruct (Trie.search trie text). Qed.

Lemma foreignWordTransform_twice trie node :
  Span.foreignWordTransform trie (Span.foreignWordTransform trie node)
  = Span.foreignWordTransform trie node.
Proof.
  destruct node as [text|text repl| |attributes dom children]; try done.
  simpl. destruct (Trie.search trie text) eqn:Hs; simpl; [|done].
  by rewrite Hs.
Qed.

Lemma reverseTransform_no_divergent trie tree :
  Span.divergentSpans trie tree = [] → Span.reverseTransform trie tree = tree.
Proof.
  induction tree as [text|text repl| |attributes dom children IH]
    using LexicalNode_tree_ind; simpl; try done.
  - by destruct (Trie.search trie text).
  - intros Hnone. f_equal.
    induction IH as [|child children Hchild _ IHchildren]; [done|].
    simpl in Hnone. apply app_eq_nil in Hnone as [Hc Hcs].
    rewrite fmap_cons. f_equal; auto.
Qed.

Lemma reverseTransform_heals trie tree :
  Span.divergentSpans trie (Span.reverseTransform trie tree) = [].
Proof.
  induction tree as [text|text repl| |attributes dom children IH]
    using LexicalNode_tree_ind; simpl; try done.
  - destruct (Trie.search trie text) eqn:Hs; simpl; [|done].
    by rewrite Hs.
  - induction IH as [|child children Hchild _ IHchildren]; [done|].
    by rewrite fmap_cons, bind_cons, Hchild, IHchildren.
Qed.

Lemma reverseTransform_twice trie tree :
  Span.reverseTransform trie (Span.reverseTransform trie tree)
  = Span.reverseTransform trie tree.
Proof. apply reverseTransform_no_divergent, reverseTransform_heals. Qed.

End Transforms.

(* ===================================================================== *)
(** ** The TextNode transform on any text *)
(* ===================================================================== *)

Section Forward.

Implicit Types (trie : Trie.Trie) (pre post sibs : list LexicalNode)
  (text : JSString) (m : Trie.Match) (p s e : nat).

Lemma nodeAt_middle pre post (node : LexicalNode) :
  Span.nodeAt (pre ++ node :: post) (length pre) = Some node.
Proof. unfold Span.nodeAt. by apply list_lookup_middle. Qed.

Lemma nodeAt_after pre post (node : LexicalNode) :
  Span.nodeAt (pre ++ node :: post) (S (length pre)) = head post.
Proof.
  unfold Span.nodeAt. rewrite lookup_app_r by lia.
  replace (S (length pre) - length pre) with 1 by lia.
  simpl. by rewrite head_lookup.
Qed.

Lemma insert_middle pre post (node node' : LexicalNode) :
  <[length pre := node']> (pre ++ node :: post) = pre ++ node' :: post.
Proof.
  rewrite insert_app_r_alt by lia.
  by replace (length pre - length pre) with 0 by lia.
Qed.

(** A split strictly inside a plain text leaf. *)
Lemma splitText_middle pre post text (k : nat) :
  0 < k < length text →
  splitText (pre ++ TextNode text :: post) (length pre) (Z.of_nat k)
  = Some (pre ++ TextNode (take k text) :: TextNode (drop k text) :: post,
          [length pre; S (length pre)]).
Proof.
  intros Hk. unfold splitText.
  rewrite list_lookup_middle by done. simpl.
  destruct (decide (text = [])) as [->|_]; [simpl in Hk; lia|].
  rewrite (proj2 (Z.ltb_lt 0 (Z.of_nat k))) by lia.
  rewrite (proj2 (Z.ltb_lt (Z.of_nat k) (Z.of_nat (length text)))) by lia.
  simpl. rewrite Nat2Z.id, take_app_length.
  rewrite (cons_middle (TextNode text)), app_assoc.
  rewrite drop_app_length'; [done|].
  rewrite length_app. simpl. lia.
Qed.

(** The split at the start of a match that begins at [s], in a leaf that
    holds the text from [p] on. *)
Lemma splitStart_middle pre post text p s :
  p ≤ s < length text →
  let pre1 :=
    pre ++ (if decide (p < s) then [TextNode (take (s - p) (drop p text))]
            else []) in
  Span.splitStart (pre ++ TextNode (drop p text) :: post) (length pre)
    (Z.of_nat s - Z.of_nat p) (Z.of_nat p)
  = Some (pre1 ++ TextNode (drop s text) :: post, length pre1, Z.of_nat s).
Proof.
  intros Hs pre1. unfold Span.splitStart.
  destruct (decide (p < s)) as [Hlt|Hge].
  - rewrite (proj2 (Z.gtb_gt _ _)) by lia.
    replace (Z.of_nat s - Z.of_nat p)%Z with (Z.of_nat (s - p)) by lia.
    rewrite splitText_middle by (rewrite length_drop; lia).
    simpl. rewrite nodeAt_middle. simpl.
    rewrite length_take, length_drop, drop_drop.
    replace (p + (s - p)) with s by lia.
    subst pre1. rewrite <-app_assoc. simpl.
    rewrite length_app. simpl.
    do 3 f_equal; lia.
  - assert (s = p) as -> by lia.
    rewrite Z.gtb_ltb. rewrite (proj2 (Z.ltb_ge _ _)) by lia.
    subst pre1. by rewrite app_nil_r.
Qed.

Lemma guard_passes p s text (currentText : JSString) :
  p ≤ s < length text → length currentText = length text - p →
  ((Z.of_nat s - Z.of_nat p <? 0)
   || (Z.of_nat s - Z.of_nat p >=? Z.of_nat (length currentText)))%Z = false.
Proof.
  intros Hs Hlen. apply orb_false_iff. split.
  - apply Z.ltb_ge. lia.
  - rewrite Z.geb_leb. apply Z.leb_gt. lia.
Qed.

(** The body of the loop for a match at [s, e) that ends before the end
    of the text, in a leaf that holds the text from [p] on: the text
    before the match, if any, and the span go before a leaf that holds the
    text from [e] on. *)
Lemma iteration_inner pre post text p m s e :
  Trie.start m = Z.of_nat s → Trie.end_ m = Z.of_nat e →
  p ≤ s < e → e < length text →
  let pre1 :=
    (pre ++ (if decide (p < s) then [TextNode (take (s - p) (drop p text))]
             else []))
    ++ [ForeignWordNode (Trie.word m) (Trie.replacement m)] in
  Span.iteration
    {| Span.siblings := pre ++ TextNode (drop p text) :: post;
       Span.currentNode := Some (Span.Attached (length pre));
       Span.processedLength := Z.of_nat p |} m
  = Some {| Span.siblings := pre1 ++ TextNode (drop e text) :: post;
            Span.currentNode := Some (Span.Attached (length pre1));
            Span.processedLength := Z.of_nat e |}.
Proof.
  intros Hstart Hend Hs He pre1. unfold Span.iteration. simpl.
  rewrite nodeAt_middle. simpl. rewrite Hstart, Hend.
  rewrite (guard_passes p s text) by (rewrite ?length_drop; lia).
  rewrite splitStart_middle by lia.
  rewrite nodeAt_middle. simpl.
  unfold Span.splitEnd.
  rewrite (proj2 (Z.ltb_lt _ _)) by (rewrite length_drop; lia).
  replace (Z.of_nat e - Z.of_nat s)%Z with (Z.of_nat (e - s)) by lia.
  rewrite splitText_middle by (rewrite length_drop; lia).
  simpl. unfold Span.replaceTarget. rewrite nodeAt_middle. simpl.
  rewrite insert_middle, drop_drop.
  rewrite bool_decide_eq_false_2 by lia.
  subst pre1. rewrite <-(app_assoc _ [_]). simpl.
  rewrite !length_app. simpl.
  replace (s + (e - s)) with e by lia.
  do 2 f_equal; [do 2 f_equal; lia|lia].
Qed.

(** The same for a match that ends with the text: the span is the last
    leaf made, and no exception is raised whatever follows the text
    node. *)
Lemma iteration_last pre post text p m s :
  Trie.start m = Z.of_nat s → Trie.end_ m = Z.of_nat (length text) →
  p ≤ s < length text →
  ∃ st',
    Span.iteration
      {| Span.siblings := pre ++ TextNode (drop p text) :: post;
         Span.currentNode := Some (Span.Attached (length pre));
         Span.processedLength := Z.of_nat p |} m
    = Some st'
    ∧ Span.siblings st'
      = (pre ++ (if decide (p < s) then [TextNode (take (s - p) (drop p text))]
                 else []))
        ++ ForeignWordNode (Trie.word m) (Trie.replacement m) :: post.
Proof.
  intros Hstart Hend Hs. unfold Span.iteration. simpl.
  rewrite nodeAt_middle. simpl. rewrite Hstart, Hend.
  rewrite (guard_passes p s text) by (rewrite ?length_drop; lia).
  rewrite splitStart_middle by lia.
  rewrite nodeAt_middle. simpl.
  unfold Span.splitEnd.
  rewrite (proj2 (Z.ltb_ge _ _)) by (rewrite length_drop; lia).
  rewrite nodeAt_after.
  destruct (head post) as [nextSibling|];
    [destruct (isTextNode nextSibling)|];
    unfold Span.replaceTarget; rewrite nodeAt_middle; simpl;
    rewrite insert_middle; eauto.
Qed.

Lemma Chained_last_nil m (matches : list Trie.Match) (len : Z) :
  Trie.end_ m = len → Chained (Trie.end_ m) matches len → matches = [].
Proof. destruct matches as [|m' ?]; [done|]. simpl. lia. Qed.

(** The loop of the transform over matches that follow one another, in a
    leaf that holds the text from [p] on: no exception is raised, and the
    leaf is cut into the pieces the matches define. *)
Lemma iterations_pieces text (matches : list Trie.Match) pre post p :
  p < length text →
  Chained (Z.of_nat p) matches (Z.of_nat (length text)) →
  ∃ st',
    Span.iterations
      {| Span.siblings := pre ++ TextNode (drop p text) :: post;
         Span.currentNode := Some (Span.Attached (length pre));
         Span.processedLength := Z.of_nat p |} matches
    = Some st'
    ∧ Span.siblings st' = pre ++ pieces text p matches ++ post.
Proof.
  revert pre p. induction matches as [|m matches IH]; intros pre p Hp Hch.
  - eexists. split; [done|]. simpl. by rewrite decide_True.
  - destruct Hch as [[[Hps Hse] Hel] Hch].
    set (s := Z.to_nat (Trie.start m)). set (e := Z.to_nat (Trie.end_ m)).
    assert (Trie.start m = Z.of_nat s) as Hs by (subst s; lia).
    assert (Trie.end_ m = Z.of_nat e) as He by (subst e; lia).
    destruct (decide (e < length text)) as [Hlt|Hge].
    + set (pre1 :=
             (pre ++ (if decide (p < s)
                      then [TextNode (take (s - p) (drop p text))] else []))
             ++ [ForeignWordNode (Trie.word m) (Trie.replacement m)]).
      rewrite He in Hch.
      destruct (IH pre1 e Hlt Hch) as (st' & Hst' & Hsibs).
      exists st'. split.
      * simpl Span.iterations.
        rewrite (iteration_inner pre post text p m s e) by (done || lia).
        exact Hst'.
      * rewrite Hsibs. subst pre1. simpl. fold s e.
        by rewrite <-!app_assoc.
    + assert (e = length text) as Hlen by lia.
      assert (matches = []) as ->.
      { apply (Chained_last_nil m _ (Z.of_nat (length text))); [lia|done]. }
      destruct (iteration_last pre post text p m s) as (st' & Hst' & Hsibs);
        [done|lia|lia|].
      exists st'. simpl. rewrite Hst'. split; [done|].
      rewrite Hsibs. fold s e.
      rewrite (decide_False (P := e < length text)) by lia.
      by rewrite <-!app_assoc.
Qed.

Lemma NonOverlapping_tail m (matches : list Trie.Match) :
  NonOverlapping (m :: matches) → NonOverlapping matches.
Proof. intros H i a b Ha Hb. by apply (H (S i)). Qed.

(** Matches within the text that do not overlap follow one another. *)
Lemma Chained_intro text (matches : list Trie.Match) (from : Z) :
  Forall (WithinText text) matches → NonOverlapping matches →
  (∀ m, head matches = Some m → (from ≤ Trie.start m)%Z) →
  Chained from matches (Z.of_nat (length text)).
Proof.
  intros Hin. revert from.
  induction Hin as [|m matches Hm Hin IH]; intros from Hno Hhd; [done|].
  destruct Hm as [Hm1 Hm2]. split.
  - specialize (Hhd m eq_refl). lia.
  - apply IH; [by eapply NonOverlapping_tail|].
    intros m' Hm'. apply (Hno 0 m m'); [done|].
    simpl. by rewrite <-head_lookup.
Qed.

Lemma Chained_lookup (matches : list Trie.Match) (from len : Z) (i : nat) m :
  Chained from matches len → matches !! i = Some m →
  (from ≤ Trie.start m < Trie.end_ m ∧ Trie.end_ m ≤ len)%Z.
Proof.
  revert from i. induction matches as [|m' matches IH]; intros from i; [done|].
  intros [Hm' Hch]. destruct i as [|i]; simpl.
  - by intros [= <-].
  - intros Hm. specialize (IH _ _ Hch Hm). lia.
Qed.

(** Matches that follow one another are disjoint two by two, not only
    each from the next. *)
Lemma Chained_disjoint (matches : list Trie.Match) (from len : Z)
    (i j : nat) (a b : Trie.Match) :
  Chained from matches len → i < j →
  matches !! i = Some a → matches !! j = Some b →
  (Trie.end_ a ≤ Trie.start b)%Z.
Proof.
  revert from i j.
  induction matches as [|m matches IH]; intros from i j; [done|].
  intros [Hm Hch] Hij. destruct j as [|j]; [lia|].
  destruct i as [|i]; simpl.
  - intros [= <-] Hb.
    by apply (Chained_lookup _ _ _ _ _ Hch) in Hb as [[? _] _].
  - apply (IH _ _ _ Hch). lia.
Qed.

Lemma findAllMatches_Chained trie text :
  Chained 0 (Trie.findAllMatches trie text) (Z.of_nat (length text)).
Proof.
  apply Chained_intro.
  - apply Forall_forall. intros m Hm.
    apply findAllMatches_candidate, candidates_elem in Hm as (i & _ & Hm).
    by apply matchAt_within in Hm as [_ ?].
  - apply removeOverlappingMatches_non_overlapping.
  - intros m Hm%head_Some_elem_of.
    apply findAllMatches_candidate, candidates_elem in Hm as (i & _ & Hm).
    apply matchAt_within in Hm as [_ [? _]]. lia.
Qed.

(** No two matches of [findAllMatches] overlap. *)
Lemma findAllMatches_disjoint trie text (i j : nat) (a b : Trie.Match) :
  i < j →
  Trie.findAllMatches trie text !! i = Some a →
  Trie.findAllMatches trie text !! j = Some b →
  (Trie.end_ a ≤ Trie.start b)%Z.
Proof.
  apply (Chained_disjoint _ 0 (Z.of_nat (length text))).
  apply findAllMatches_Chained.
Qed.

(** The TextNode transform of a plain text node, whatever the trie, the
    text and the siblings: no exception is raised, and the node gives way
    to the pieces its text is cut into by the matches of
    [findAllMatches], the siblings before and after staying as they
    are. *)
Lemma textNodeTransform_pieces trie pre post text :
  text ≠ [] →
  Span.textNodeTransform trie (pre ++ TextNode text :: post) (length pre)
  = Some (pre ++ pieces text 0 (Trie.findAllMatches trie text) ++ post).
Proof.
  intros Htext. unfold Span.textNodeTransform.
  rewrite list_lookup_middle by done.
  rewrite decide_False by done.
  assert (0 < length text) as Hlen by (destruct text; [done|simpl; lia]).
  destruct (decide (length (Trie.findAllMatches trie text) = 0)) as [Hnil|Hne].
  - apply nil_length_inv in Hnil. rewrite Hnil. simpl.
    by rewrite decide_True.
  - destruct (iterations_pieces text (Trie.findAllMatches trie text)
                pre post 0 Hlen (findAllMatches_Chained trie text))
      as (st' & Hst' & Hsibs).
    rewrite drop_0 in Hst'. change (Z.of_nat 0) with 0%Z in Hst'.
    rewrite Hst'. simpl. by rewrite Hsibs.
Qed.

Lemma textContent_app (leaves leaves' : list LexicalNode) :
  textContent (leaves ++ leaves') = textContent leaves ++ textContent leaves'.
Proof. unfold textContent. by rewrite omap_app, join_app. Qed.

Lemma drop_split text p s :
  p ≤ s → drop p text = take (s - p) (drop p text) ++ drop s text.
Proof.
  intros Hs. rewrite <-(take_drop (s - p) (drop p text)) at 1.
  rewrite drop_drop. by replace (p + (s - p)) with s by lia.
Qed.

(** The pieces hold the text from [pos] on when every match covers its
    word. *)
Lemma pieces_textContent text (matches : list Trie.Match) p :
  Chained (Z.of_nat p) matches (Z.of_nat (length text)) →
  Forall (CoversItsWord text) matches →
  textContent (pieces text p matches) = drop p text.
Proof.
  intros Hch Hwords. revert p Hch.
  induction Hwords as [|m matches Hm _ IH]; intros p Hch; simpl.
  - destruct (decide (p < length text)).
    + unfold textContent. simpl. by rewrite app_nil_r.
    + rewrite drop_ge by lia. done.
  - destruct Hch as [[[Hps Hse] Hel] Hch].
    replace (Trie.end_ m) with (Z.of_nat (Z.to_nat (Trie.end_ m))) in Hch
      by lia.
    rewrite textContent_app.
    change (textContent (ForeignWordNode (Trie.word m) (Trie.replacement m)
                         :: ?l))
      with (Trie.word m ++ textContent l).
    rewrite (IH _ Hch), Hm.
    set (s := Z.to_nat (Trie.start m)). set (e := Z.to_nat (Trie.end_ m)).
    rewrite <-(drop_split text s e) by lia.
    destruct (decide (p < s)).
    + unfold textContent at 1. simpl. rewrite app_nil_r.
      by rewrite <-(drop_split text p s) by lia.
    + by replace p with s by lia.
Qed.

(** In the trie of a dictionary every match covers its word. *)
Lemma findAllMatches_covers (data : Dictionary) text :
  Forall (CoversItsWord text) (Trie.findAllMatches (Trie.build data) text).
Proof.
  apply Forall_forall. intros m Hm%findAllMatches_candidate.
  pose proof Hm as (i & _ & [_ [? ?]]%matchAt_within)%candidates_elem.
  apply candidates_are_entries in Hm as (_ & [tail Htail] & Hlen).
  unfold CoversItsWord. rewrite Htail.
  rewrite take_app_length'; [done|lia].
Qed.

(** With the trie of a dictionary, the TextNode transform keeps the text
    of the siblings as it is. *)
Lemma textNodeTransform_textContent (data : Dictionary) pre post text :
  ∃ sibs,
    Span.textNodeTransform (Trie.build data) (pre ++ TextNode text :: post)
      (length pre) = Some sibs
    ∧ textContent sibs = textContent (pre ++ TextNode text :: post).
Proof.
  destruct (decide (text = [])) as [->|Htext].
  - eexists. split; [|done]. unfold Span.textNodeTransform.
    by rewrite list_lookup_middle.
  - eexists. split; [by apply textNodeTransform_pieces|].
    rewrite (cons_middle (TextNode text)), !textContent_app.
    rewrite pieces_textContent;
      [|apply findAllMatches_Chained|apply findAllMatches_covers].
    unfold textContent at 4. simpl. by rewrite app_nil_r.
Qed.

End Forward.

(** C4.  With the dictionary of the one term "coffee" and its replacement
    "brew", the TextNode transform turns the single plain text node
    "I like coffee a lot" into three siblings: the plain text "I like ",
    the ForeignWordNode of "coffee" with replacement "brew", and the plain
    text " a lot"; siblings before and after the node stay as they are.
    The transforms then leave each of the three as it is. *)
Theorem forward_transform_coffee :
  Span.textNodeTransform (Trie.build dict_coffee)
    [TextNode (JS.lit "I like coffee a lot")] 0
  = Some coffee_leaves
  ∧ (∀ pre post,
        Span.textNodeTransform (Trie.build dict_coffee)
          (pre ++ TextNode (JS.lit "I like coffee a lot") :: post) (length pre)
        = Some (pre ++ coffee_leaves ++ post))
  ∧ Span.textNodeTransform (Trie.build dict_coffee) coffee_leaves 0
    = Some coffee_leaves
  ∧ Span.textNodeTransform (Trie.build dict_coffee) coffee_leaves 1
    = Some coffee_leaves
  ∧ Span.textNodeTransform (Trie.build dict_coffee) coffee_leaves 2
    = Some coffee_leaves
  ∧ Span.foreignWordTransform (Trie.build dict_coffee) <$> coffee_leaves
    = coffee_leaves.
Proof.
  split; [by vm_compute|]. split; [|repeat split; by vm_compute].
  intros pre post. by rewrite textNodeTransform_pieces.
Qed.

(** C5.  On a plain text node in whose text [findAllMatches] finds
    nothing, the TextNode transform returns without an exception and
    leaves the siblings as they are. *)
Theorem forward_transform_no_match (trie : Trie.Trie)
    (sibs : list LexicalNode) (idx : nat) (text : JSString) :
  sibs !! idx = Some (TextNode text) →
  Trie.findAllMatches trie text = [] →
  Span.textNodeTransform trie sibs idx = Some sibs.
Proof.
  intros Hnode Hnone. unfold Span.textNodeTransform.
  rewrite Hnode, Hnone. simpl. by destruct (decide (text = [])).
Qed.

Lemma forward_transform_no_match_witness :
  Span.textNodeTransform (Trie.build dict_coffee)
    [TextNode (JS.lit "tea"); LeafNode] 0
  = Some [TextNode (JS.lit "tea"); LeafNode].
Proof.
  apply (forward_transform_no_match _ _ 0 (JS.lit "tea")).
  - reflexivity.
  - by vm_compute.
Defined.

(** C6.  The ForeignWordNode transform puts a plain TextNode with the
    same text in the place of a span whose text fails [search], and
    leaves a span whose text passes, which is one whose text is a term of
    the dictionary the trie was built from.  Run over a tree without a
    divergent span it changes nothing; run over any tree it leaves no
    divergent span, so that a second run changes nothing more, on a node
    and on a tree. *)
Theorem reverse_transform_heals (trie : Trie.Trie) :
  (∀ text repl,
      Span.foreignWordTransform trie (ForeignWordNode text repl)
      = if Trie.search trie text then ForeignWordNode text repl
        else TextNode text)
  ∧ (∀ (data : Dictionary) text repl r,
        (text, r) ∈ data →
        Span.foreignWordTransform (Trie.build data) (ForeignWordNode text repl)
        = ForeignWordNode text repl)
  ∧ (∀ tree,
        Span.divergentSpans trie tree = [] →
        Span.reverseTransform trie tree = tree)
  ∧ (∀ tree,
        Span.divergentSpans trie (Span.reverseTransform trie tree) = [])
  ∧ (∀ node,
        Span.foreignWordTransform trie (Span.foreignWordTransform trie node)
        = Span.foreignWordTransform trie node)
  ∧ (∀ tree,
        Span.reverseTransform trie (Span.reverseTransform trie tree)
        = Span.reverseTransform trie tree).
Proof.
  split; [apply foreignWordTransform_span|].
  split.
  { intros data text repl r Hin. rewrite foreignWordTransform_span.
    assert (Trie.search (Trie.build data) text = true) as ->; [|done].
    apply search_build. by exists r. }
  split; [apply reverseTransform_no_divergent|].
  split; [apply reverseTransform_heals|].
  split; [apply foreignWordTransform_twice|apply reverseTransform_twice].
Qed.

Lemma reverse_transform_heals_witness :
  Span.foreignWordTransform (Trie.build dict_coffee)
    (ForeignWordNode (JS.lit "coffee") (JS.lit "brew"))
  = ForeignWordNode (JS.lit "coffee") (JS.lit "brew")
  ∧ Span.reverseTransform (Trie.build dict_coffee)
      (ElementNode ∅ None coffee_leaves)
    = ElementNode ∅ None coffee_leaves.
Proof.
  destruct (reverse_transform_heals (Trie.build dict_coffee))
    as (_ & Hterm & Htree & _).
  split.
  - apply (Hterm dict_coffee _ _ (JS.lit "brew")). left.
  - apply Htree. by vm_compute.
Defined.

(** A span edited from "coffee" to "coffe" is converted by the first run
    and left alone by the second. *)
Example reverse_transform_edited_span :
  Span.foreignWordTransform (Trie.build dict_coffee)
    (ForeignWordNode (JS.lit "coffe") (JS.lit "brew"))
  = TextNode (JS.lit "coffe")
  ∧ Span.foreignWordTransform (Trie.build dict_coffee) (TextNode (JS.lit "coffe"))
    = TextNode (JS.lit "coffe").
Proof. split; by vm_compute. Qed.

(* ===================================================================== *)
(** ** The tracker *)
(* ===================================================================== *)

Section TrackerFacts.

Implicit Types (id x y : JSString) (s ids calls : list JSString)
  (root : LexicalNode).

Lemma setAdd_elem x y s : y ∈ JS.setAdd x s ↔ y = x ∨ y ∈ s.
Proof.
  unfold JS.setAdd. destruct (decide (x ∈ s)) as [Hx|Hx].
  - split; [auto|]. intros [->|?]; done.
  - rewrite elem_of_app, list_elem_of_singleton. tauto.
Qed.

Lemma setAdd_NoDup x s : NoDup s → NoDup (JS.setAdd x s).
Proof.
  intros Hs. unfold JS.setAdd. destruct (decide (x ∈ s)) as [Hx|Hx]; [done|].
  apply NoDup_app. split; [done|]. split.
  - intros y Hy ->%list_elem_of_singleton. done.
  - apply NoDup_singleton.
Qed.

Lemma setHas_true x s : JS.setHas x s = true ↔ x ∈ s.
Proof. unfold JS.setHas. apply bool_decide_eq_true. Qed.

Lemma findDeletedWordIds_from previousIds currentIds deleted :
  NoDup deleted →
  let result :=
    foldl (λ deletedIds id,
             if negb (JS.setHas id currentIds) then JS.setAdd id deletedIds
             else deletedIds) deleted previousIds in
  NoDup result
  ∧ ∀ id, id ∈ result ↔
          id ∈ deleted ∨ (id ∈ previousIds ∧ id ∉ currentIds).
Proof.
  revert deleted.
  induction previousIds as [|x previousIds IH]; intros deleted Hd; simpl.
  - split; [done|]. intros id. rewrite elem_of_nil. tauto.
  - destruct (JS.setHas x currentIds) eqn:Hx; simpl.
    + destruct (IH deleted Hd) as [Hn He]. split; [done|].
      intros id. rewrite He, elem_of_cons.
      apply setHas_true in Hx. split; [tauto|].
      intros [?|[[->|?] ?]]; tauto.
    + destruct (IH (JS.setAdd x deleted) (setAdd_NoDup _ _ Hd)) as [Hn He].
      split; [done|]. intros id. rewrite He, setAdd_elem, elem_of_cons.
      assert (x ∉ currentIds) as Hx'.
      { intros Hin%setHas_true. congruence. }
      split; [|tauto]. intros [[->|?]|[? ?]]; tauto.
Qed.

Lemma findDeletedWordIds_NoDup previousIds currentIds :
  NoDup (Tracker.findDeletedWordIds previousIds currentIds).
Proof. apply findDeletedWordIds_from, NoDup_nil_2. Qed.

(** [findDeletedWordIds] is the difference of the two sets. *)
Lemma findDeletedWordIds_elem previousIds currentIds id :
  id ∈ Tracker.findDeletedWordIds previousIds currentIds
  ↔ id ∈ previousIds ∧ id ∉ currentIds.
Proof.
  destruct (findDeletedWordIds_from previousIds currentIds [])
    as [_ He]; [apply NoDup_nil_2|].
  unfold Tracker.findDeletedWordIds. rewrite He, elem_of_nil. tauto.
Qed.

Lemma collectWordIds_from (parents : list LexicalNode) attributeName ids id :
  id ∈ foldl
         (λ ids parent,
            match Tracker.getNodeAttribute parent attributeName with
            | Some id => if JS.truthy (Some id) then JS.setAdd id ids else ids
            | None => ids
            end) ids parents
  ↔ id ∈ ids
    ∨ ∃ parent, parent ∈ parents
                ∧ Tracker.getNodeAttribute parent attributeName = Some id
                ∧ id ≠ [].
Proof.
  revert ids. induction parents as [|p parents IH]; intros ids; simpl.
  - split; [auto|]. intros [?|(? & []%elem_of_nil & _)]. done.
  - rewrite IH. split.
    + intros [Hin|(parent & Hp & Ha & Hne)].
      * destruct (Tracker.getNodeAttribute p attributeName) as [v|] eqn:Hv;
          [|auto].
        destruct v as [|u v]; simpl in Hin; [auto|].
        apply setAdd_elem in Hin as [->|?]; [|auto].
        right. exists p. split; [left|done].
      * right. exists parent. split; [by right|done].
    + intros [Hin|(parent & [->|Hp]%elem_of_cons & Ha & Hne)].
      * left. destruct (Tracker.getNodeAttribute p attributeName) as [v|];
          [|done].
        destruct v; simpl; [done|]. apply setAdd_elem. auto.
      * left. rewrite Ha. destruct id; [done|]. simpl.
        apply setAdd_elem. auto.
      * right. by exists parent.
Qed.

(** The ids [collectWordIds] gathers are the values of the attribute,
    when not empty, on the parents of the text nodes. *)
Lemma collectWordIds_elem root attributeName id :
  id ∈ Tracker.collectWordIds root attributeName
  ↔ ∃ parent, parent ∈ Tracker.textNodeParents root
              ∧ Tracker.getNodeAttribute parent attributeName = Some id
              ∧ id ≠ [].
Proof.
  unfold Tracker.collectWordIds. rewrite collectWordIds_from, elem_of_nil.
  tauto.
Qed.

Lemma handleEditorUpdate_calls editorState prevEditorState attributeName calls :
  Tracker.handleEditorUpdate editorState prevEditorState attributeName
    Tracker.logCall calls
  = calls
    ++ Tracker.findDeletedWordIds
         (Tracker.collectWordIds prevEditorState attributeName)
         (Tracker.collectWordIds editorState attributeName).
Proof.
  unfold Tracker.handleEditorUpdate.
  generalize (Tracker.findDeletedWordIds
                (Tracker.collectWordIds prevEditorState attributeName)
                (Tracker.collectWordIds editorState attributeName)).
  intros deleted. revert calls.
  induction deleted as [|x deleted IH]; intros calls; simpl.
  - by rewrite app_nil_r.
  - rewrite IH. unfold Tracker.logCall. by rewrite <-app_assoc.
Qed.

Lemma timesCalled_NoDup id calls :
  NoDup calls →
  timesCalled id calls = if bool_decide (id ∈ calls) then 1 else 0.
Proof.
  unfold timesCalled. induction 1 as [|x calls Hx Hnd IH].
  - done.
  - rewrite filter_cons. destruct (decide (x = id)) as [->|Hne]; simpl.
    + rewrite IH, bool_decide_eq_false_2 by done.
      rewrite bool_decide_eq_true_2; [done|left].
    + rewrite IH. destruct (decide (id ∈ calls)) as [Hin|Hin].
      * rewrite !bool_decide_eq_true_2; [done|by right|done].
      * rewrite !bool_decide_eq_false_2; [done| |done].
        intros [->|?]%elem_of_cons; done.
Qed.

End TrackerFacts.

(** C7.  Whatever the two editor states, [handleEditorUpdate] calls the
    deletion callback once with every id that is among the ids of the
    previous state and not among those of the current state, and never
    with another id; the ids of a state are the values of the configured
    attribute, when not empty, on the parents of its text nodes. *)
Theorem deletion_callback_once
    (editorState prevEditorState : LexicalNode) (attributeName id : JSString) :
  timesCalled id
    (Tracker.handleEditorUpdate editorState prevEditorState attributeName
       Tracker.logCall [])
  = (if bool_decide
          (id ∈ Tracker.collectWordIds prevEditorState attributeName
           ∧ id ∉ Tracker.collectWordIds editorState attributeName)
     then 1 else 0)
  ∧ ∀ root,
      id ∈ Tracker.collectWordIds root attributeName
      ↔ ∃ parent, parent ∈ Tracker.textNodeParents root
                  ∧ Tracker.getNodeAttribute parent attributeName = Some id
                  ∧ id ≠ [].
Proof.
  split; [|intros root; apply collectWordIds_elem].
  rewrite handleEditorUpdate_calls, app_nil_l.
  rewrite timesCalled_NoDup by apply findDeletedWordIds_NoDup.
  by rewrite (bool_decide_ext _ _ (findDeletedWordIds_elem _ _ id)).
Qed.

(** Of the words "orig-1", "orig-2" and "orig-3", the second is gone from
    the current state: the callback is called with "orig-2" and with
    nothing else. *)
Example deletion_callback_example :
  Tracker.handleEditorUpdate
    (stateOf [originWord "orig-1" "bonjour"; originWord "orig-3" "ciao"])
    (stateOf [originWord "orig-1" "bonjour"; originWord "orig-2" "hola";
              originWord "orig-3" "ciao"])
    (JS.lit "originid") Tracker.logCall []
  = [JS.lit "orig-2"].
Proof. by vm_compute. Qed.

(* ===================================================================== *)
(** ** The data-unique pass *)
(* ===================================================================== *)

Section UniqueFacts.

Variable entropy : nat → Unique.Entropy.

Implicit Types (node child : LexicalNode) (blocks : list LexicalNode)
  (st : Unique.Pass) (value : JSString).

Lemma collectExistingUniqueValues_from blocks (values : list JSString) value :
  value ∈ foldl
            (λ values child,
               match Unique.getUniqueAttributeValue child with
               | Some value =>
                   if JS.truthy (Some value) then JS.setAdd value values
                   else values
               | None => values
               end) values blocks
  ↔ value ∈ values
    ∨ ∃ child, child ∈ blocks
               ∧ Unique.getUniqueAttributeValue child = Some value
               ∧ value ≠ [].
Proof.
  revert values. induction blocks as [|b blocks IH]; intros values; simpl.
  - split; [auto|]. intros [?|(? & []%elem_of_nil & _)]. done.
  - rewrite IH. split.
    + intros [Hin|(child & Hc & Ha & Hne)].
      * destruct (Unique.getUniqueAttributeValue b) as [v|] eqn:Hv; [|auto].
        destruct v as [|u v]; simpl in Hin; [auto|].
        apply setAdd_elem in Hin as [->|?]; [|auto].
        right. exists b. split; [left|done].
      * right. exists child. split; [by right|done].
    + intros [Hin|(child & [->|Hc]%elem_of_cons & Ha & Hne)].
      * left. destruct (Unique.getUniqueAttributeValue b) as [v|]; [|done].
        destruct v; simpl; [done|]. apply setAdd_elem. auto.
      * left. rewrite Ha. destruct value; [done|]. simpl.
        apply setAdd_elem. auto.
      * right. by exists child.
Qed.

(** [collectExistingUniqueValues] puts the value of every child of the
    root in the set before the loop starts. *)
Lemma collectExistingUniqueValues_collected root :
  Collected (Unique.getChildren root) (Unique.collectExistingUniqueValues root).
Proof.
  intros child value Hc Hv Hne. unfold Unique.collectExistingUniqueValues.
  apply collectExistingUniqueValues_from. right. by exists child.
Qed.

(** With its value in the set already, a node goes through the second
    half of [assignUniqueAttributeIfNeeded]. *)
Lemma assignUniqueAttributeIfNeeded_collected node st :
  Collected [node] (Unique.existingValues st) →
  Unique.assignUniqueAttributeIfNeeded entropy node st
  = if Lexical.isElementNode node then Unique.assignFresh entropy node st
    else (node, st, false).
Proof.
  intros Hcol. unfold Unique.assignUniqueAttributeIfNeeded.
  destruct (Lexical.isElementNode node); simpl; [|done].
  destruct (Unique.getUniqueAttributeValue node) as [v|] eqn:Hv; [|done].
  destruct v as [|u v]; simpl; [done|].
  rewrite (proj2 (setHas_true (u :: v) (Unique.existingValues st))); [done|].
  apply (Hcol node); [left|done|done].
Qed.

Lemma generatedIds_cons (from count : nat) :
  generatedIds entropy from (S count)
  = Unique.generateUniqueId Unique.Prefix_UNIQUE (entropy from)
    :: generatedIds entropy (S from) count.
Proof. done. Qed.

Lemma generatedIds_sublist_S (from count : nat) :
  generatedIds entropy from count `sublist_of` generatedIds entropy from (S count).
Proof.
  unfold generatedIds. rewrite seq_S, fmap_app. by apply sublist_inserts_r.
Qed.

(** When every value is in the set before the loop starts, the loop
    keeps none: the values afterwards are among the identifiers
    generated during the loop, in the order of generation. *)
Lemma assignAll_generated blocks st :
  Collected blocks (Unique.existingValues st) →
  Unique.uniqueIds (Unique.assignAll entropy blocks st).1
    `sublist_of` generatedIds entropy (Unique.generated st) (length blocks).
Proof.
  revert st. induction blocks as [|b blocks IH]; intros st Hcol.
  - done.
  - simpl Unique.assignAll.
    rewrite assignUniqueAttributeIfNeeded_collected; last first.
    { intros c v ->%list_elem_of_singleton. apply Hcol. left. }
    assert (∀ st', Unique.existingValues st ⊆ Unique.existingValues st' →
                   Collected blocks (Unique.existingValues st')) as Hrest.
    { intros st' Hsub c v Hc Hv Hne. apply Hsub, (Hcol c); [by right|done..]. }
    destruct b as [text|text repl| |attributes [dom|] children]; simpl.
    + specialize (IH st (Hrest st (λ x H, H))).
      destruct (Unique.assignAll entropy blocks st) as [rest st'']. simpl in *.
      etrans; [exact IH|apply generatedIds_sublist_S].
    + specialize (IH st (Hrest st (λ x H, H))).
      destruct (Unique.assignAll entropy blocks st) as [rest st'']. simpl in *.
      etrans; [exact IH|apply generatedIds_sublist_S].
    + specialize (IH st (Hrest st (λ x H, H))).
      destruct (Unique.assignAll entropy blocks st) as [rest st'']. simpl in *.
      etrans; [exact IH|apply generatedIds_sublist_S].
    + unfold Unique.assignFresh. simpl.
      match goal with
      | |- context [Unique.assignAll entropy blocks ?s] =>
          specialize (IH s); destruct (Unique.assignAll entropy blocks s)
            as [rest st''] eqn:Hrec
      end.
      simpl in *. unfold Unique.uniqueIds. simpl.
      unfold Unique.getUniqueAttributeValue at 1. simpl.
      rewrite lookup_insert_eq. rewrite generatedIds_cons.
      apply sublist_skip, IH.
      intros c v Hc Hv Hne. apply setAdd_elem. right.
      apply (Hcol c); [by right|done..].
    + unfold Unique.assignFresh. simpl.
      match goal with
      | |- context [Unique.assignAll entropy blocks ?s] =>
          specialize (IH s); destruct (Unique.assignAll entropy blocks s)
            as [rest st''] eqn:Hrec
      end.
      simpl in *. rewrite generatedIds_cons.
      apply sublist_cons, IH.
      intros c v Hc Hv Hne. apply (Hcol c); [by right|done..].
Qed.

(** After [processAllRootChildren], the values of the blocks are among
    the identifiers generated during the pass. *)
Lemma processAllRootChildren_generated root :
  Unique.uniqueIds (Unique.processAllRootChildren entropy root)
    `sublist_of` generatedIds entropy 0 (length (Unique.getChildren root)).
Proof.
  unfold Unique.processAllRootChildren.
  apply (assignAll_generated (Unique.getChildren root)
           {| Unique.existingValues := Unique.collectExistingUniqueValues root;
              Unique.generated := 0 |}).
  apply collectExistingUniqueValues_collected.
Qed.

End UniqueFacts.

Section WithoutDomFacts.

Variable entropy : nat → Unique.Entropy.





End WithoutDomFacts.






(* ===================================================================== *)
(** ** More on the trie: what [insert] does to [search] and
       [getReplacement] *)
(* ===================================================================== *)

Section TrieAlgebra.

Implicit Types (t : Trie.Trie) (n : TrieNode) (cs chars : list JSString)
  (w r : JSString) (data : Dictionary).

Lemma getReplacement_replacementAt t w :
  Trie.getReplacement t w = replacementAt (Trie.root t) (JS.codePoints w).
Proof. done. Qed.

Lemma replacementAt_createNode cs : replacementAt Trie.createNode cs = None.
Proof. by destruct cs. Qed.

Lemma replacementAt_cons n c cs :
  replacementAt n (c :: cs)
  = match TrieNode.children n !! c with
    | Some next => replacementAt next cs
    | None => None
    end.
Proof.
  unfold replacementAt. simpl. by destruct (TrieNode.children n !! c).
Qed.

Lemma replacementAt_insertFrom n chars w r cs :
  replacementAt (Trie.insertFrom n chars w r) cs
  = if decide (cs = chars) then stored r else replacementAt n cs.
Proof.
  revert n cs. induction chars as [|c chars IH]; intros n cs.
  - destruct cs as [|c' cs].
    + rewrite decide_True by done. unfold replacementAt, stored. simpl.
      by destruct r.
    + rewrite decide_False by done. by rewrite !replacementAt_cons.
  - destruct cs as [|c' cs].
    + rewrite decide_False by done. by destruct n.
    + simpl Trie.insertFrom. rewrite !replacementAt_cons. simpl.
      destruct (decide (c' = c)) as [->|Hc].
      * rewrite lookup_insert_eq, IH.
        destruct (decide (cs = chars)) as [->|Hcs].
        { by rewrite decide_True. }
        rewrite decide_False by congruence.
        destruct (TrieNode.children n !! c); [done|].
        apply replacementAt_createNode.
      * rewrite lookup_insert_ne by done.
        by rewrite decide_False by congruence.
Qed.

Lemma insertFrom_twice n chars w r r' :
  Trie.insertFrom (Trie.insertFrom n chars w r) chars w r'
  = Trie.insertFrom n chars w r'.
Proof.
  revert n. induction chars as [|c chars IH]; intros n; simpl; [done|].
  rewrite lookup_insert_eq, insert_insert_eq. by rewrite IH.
Qed.

Lemma insertFrom_commute n cs1 cs2 w1 r1 w2 r2 :
  cs1 ≠ cs2 →
  Trie.insertFrom (Trie.insertFrom n cs1 w1 r1) cs2 w2 r2
  = Trie.insertFrom (Trie.insertFrom n cs2 w2 r2) cs1 w1 r1.
Proof.
  revert n cs2. induction cs1 as [|c1 cs1 IH]; intros n [|c2 cs2] Hne;
    simpl; try done.
  destruct (decide (c1 = c2)) as [->|Hc].
  - rewrite !lookup_insert_eq, !insert_insert_eq.
    rewrite IH by congruence. done.
  - rewrite !lookup_insert_ne by done.
    f_equal. by apply insert_insert_ne.
Qed.

End TrieAlgebra.

(** X1.  After [insert(w, r)], [search] succeeds on [w] and answers as
    before on every other string, whatever the trie, the term and the
    replacement. *)
Theorem search_after_insert (t : Trie.Trie) (w r w' : JSString) :
  Trie.search (Trie.insert t w r) w' = bool_decide (w' = w) || Trie.search t w'.
Proof.
  rewrite !search_endAt. simpl. rewrite endAt_insertFrom. f_equal.
  apply bool_decide_ext. split; [apply codePoints_inj|by intros ->].
Qed.

(** X2.  After [insert(w, r)], [getReplacement(w)] is [r], or [null] when
    [r] is the empty string, and [getReplacement] answers as before on
    every other string. *)
Theorem getReplacement_after_insert (t : Trie.Trie) (w r w' : JSString) :
  Trie.getReplacement (Trie.insert t w r) w'
  = if decide (w' = w) then (if decide (r = []) then None else Some r)
    else Trie.getReplacement t w'.
Proof.
  rewrite !getReplacement_replacementAt. simpl.
  rewrite replacementAt_insertFrom.
  destruct (decide (w' = w)) as [->|Hne].
  - rewrite decide_True by done. unfold stored. by destruct r.
  - rewrite decide_False; [done|]. by intros ?%codePoints_inj.
Qed.

(** X3.  Inserting a term again overwrites its replacement and leaves the
    trie otherwise as it is: the result is the trie of the second
    insertion alone. *)
Theorem insert_overwrites (t : Trie.Trie) (w r r' : JSString) :
  Trie.insert (Trie.insert t w r) w r' = Trie.insert t w r'.
Proof. unfold Trie.insert. simpl. by rewrite insertFrom_twice. Qed.

Section BuildOrder.

Implicit Types (t : Trie.Trie) (data : Dictionary).

Lemma insert_commute t (w1 r1 w2 r2 : JSString) :
  w1 ≠ w2 →
  Trie.insert (Trie.insert t w1 r1) w2 r2
  = Trie.insert (Trie.insert t w2 r2) w1 r1.
Proof.
  intros Hne. unfold Trie.insert. simpl. f_equal.
  apply insertFrom_commute. by intros ?%codePoints_inj.
Qed.

Lemma foldl_insert_Permutation data data' t :
  NoDup (terms data) → data ≡ₚ data' →
  foldl (λ t fw, Trie.insert t fw.1 fw.2) t data
  = foldl (λ t fw, Trie.insert t fw.1 fw.2) t data'.
Proof.
  intros Hnd Hperm. revert t Hnd.
  induction Hperm as [|x l l' Hperm IH|x y l|l l' l'' H1 IH1 H2 IH2];
    intros t Hnd; simpl.
  - done.
  - apply IH. by apply NoDup_cons in Hnd as [_ ?].
  - f_equal. apply insert_commute.
    unfold terms in Hnd. simpl in Hnd.
    apply NoDup_cons in Hnd as [Hy _]. intros Heq. apply Hy.
    rewrite Heq. left.
  - rewrite IH1 by done. apply IH2.
    unfold terms in *. by rewrite <-H1.
Qed.

End BuildOrder.

(** X4.  The trie of a dictionary whose terms are pairwise distinct does
    not depend on the order of the insertions. *)
Theorem build_order_irrelevant (data data' : Dictionary) :
  NoDup (terms data) → data ≡ₚ data' → Trie.build data = Trie.build data'.
Proof. apply foldl_insert_Permutation. Qed.

Lemma build_order_irrelevant_witness :
  Trie.build dict_a_ab = Trie.build (reverse dict_a_ab).
Proof.
  apply build_order_irrelevant.
  - apply (bool_decide_unpack _). by vm_compute.
  - apply Permutation_swap.
Defined.

Section BuildLookup.

Implicit Types (t : Trie.Trie) (n : TrieNode) (cs : list JSString)
  (w r : JSString) (data : Dictionary) (m : Trie.Match).

Lemma lastReplacement_snoc data w0 r0 w :
  lastReplacement (data ++ [(w0, r0)]) w
  = if decide (w = w0) then Some r0 else lastReplacement data w.
Proof.
  unfold lastReplacement. rewrite filter_app, filter_cons, filter_nil. simpl.
  destruct (decide (w0 = w)) as [->|Hne].
  - rewrite decide_True by done. by rewrite last_snoc.
  - rewrite decide_False by done. by rewrite app_nil_r.
Qed.

Lemma replacementAt_build data w :
  replacementAt (Trie.root (Trie.build data)) (JS.codePoints w)
  = lastReplacement data w ≫= stored.
Proof.
  induction data as [|[w0 r0] data IH] using rev_ind.
  - by rewrite replacementAt_createNode.
  - rewrite build_snoc, lastReplacement_snoc. simpl.
    rewrite replacementAt_insertFrom.
    destruct (decide (w = w0)) as [->|Hne].
    + by rewrite decide_True.
    + rewrite decide_False; [done|]. by intros ?%codePoints_inj.
Qed.

Lemma recordable_Some n w r :
  Trie.recordable n = Some (w, r) →
  TrieNode.isEndOfWord n = true
  ∧ TrieNode.word n = Some w ∧ TrieNode.replacement n = Some r
  ∧ w ≠ [] ∧ r ≠ [].
Proof.
  unfold Trie.recordable.
  destruct (TrieNode.word n) as [[|u w']|], (TrieNode.replacement n) as [[|v r']|],
    (TrieNode.isEndOfWord n); simpl; try done.
  by intros [= <- <-].
Qed.

Lemma recordableAt_lookups n cs w r :
  recordableAt n cs = Some (w, r) →
  endAt n cs = true ∧ replacementAt n cs = Some r.
Proof.
  unfold recordableAt, endAt, replacementAt.
  destruct (Trie.descend n cs) as [current|]; [|done]. simpl.
  intros (-> & _ & -> & _ & Hr)%recordable_Some. split; [done|].
  simpl. by destruct r.
Qed.

Lemma omap_None {A B} (f : A → option B) (l : list A) :
  (∀ x, x ∈ l → f x = None) → omap f l = [].
Proof.
  induction l as [|x l IH]; intros Hnone; simpl; [done|].
  rewrite (Hnone x) by left. apply IH. intros y Hy. apply Hnone. by right.
Qed.

End BuildLookup.

(** X5.  In the trie built from a dictionary, [search] succeeds exactly
    on the terms of the dictionary, the empty term included, and
    [getReplacement] returns the replacement of the last entry for the
    term, or [null] when there is no entry or when that replacement is
    the empty string. *)
Theorem build_lookup (data : Dictionary) (w : JSString) :
  Trie.search (Trie.build data) w = bool_decide (w ∈ terms data)
  ∧ Trie.getReplacement (Trie.build data) w
    = match lastReplacement data w with
      | Some r => if decide (r = []) then None else Some r
      | None => None
      end.
Proof.
  split.
  - destruct (Trie.search (Trie.build data) w) eqn:Hs; symmetry.
    + apply bool_decide_eq_true_2.
      apply search_build in Hs as [r Hr].
      apply list_elem_of_fmap. by exists (w, r).
    + apply bool_decide_eq_false_2.
      intros ([w' r] & -> & Hin)%list_elem_of_fmap.
      assert (Trie.search (Trie.build data) w' = true) as Ht.
      { apply search_build. by exists r. }
      simpl in Hs. congruence.
  - rewrite getReplacement_replacementAt, replacementAt_build.
    destruct (lastReplacement data w) as [r|]; [|done].
    simpl. unfold stored. by destruct r.
Qed.

(** X6.  Without a term in the trie, and in the empty text,
    [findAllMatches] finds nothing. *)
Theorem findAllMatches_nothing (t : Trie.Trie) (text : JSString) :
  Trie.findAllMatches Trie.new text = [] ∧ Trie.findAllMatches t [] = [].
Proof.
  split; [|done].
  unfold Trie.findAllMatches, Trie.candidates.
  rewrite omap_None; [done|].
  intros i _. unfold Trie.matchAt. by destruct (drop i text).
Qed.

(** X7.  With the trie built from a dictionary, every match that
    [findAllMatches] returns reports an entry of the dictionary: its word
    is the text it covers, [search] succeeds on its word, and its
    replacement is what [getReplacement] returns for its word. *)
Theorem matches_report_entries (data : Dictionary) (text : JSString)
    (m : Trie.Match) :
  m ∈ Trie.findAllMatches (Trie.build data) text →
  (Trie.word m, Trie.replacement m) ∈ data
  ∧ CoversItsWord text m
  ∧ Trie.search (Trie.build data) (Trie.word m) = true
  ∧ Trie.getReplacement (Trie.build data) (Trie.word m)
    = Some (Trie.replacement m).
Proof.
  intros Hm.
  pose proof (findAllMatches_covers data text) as Hcov.
  rewrite Forall_forall in Hcov. specialize (Hcov m Hm).
  apply findAllMatches_candidate in Hm.
  pose proof (candidates_are_entries data text m Hm) as (Hin & _ & _).
  split; [done|]. split; [done|].
  apply candidates_elem in Hm as (i & Hi & Hm).
  apply matchAt_walk in Hm as (lm & Hw & Hs & He & Hword & Hrepl).
  apply walk_sound in Hw as [?|(k & Hk & Hend & Hrec)]; [done|].
  pose proof (recordableAt_build_sound _ _ _ _ Hrec) as (_ & Hcp & _ & _).
  rewrite <-Hcp in Hrec.
  apply recordableAt_lookups in Hrec as [Hend' Hrepl'].
  rewrite search_endAt, getReplacement_replacementAt, Hword, Hrepl.
  done.
Qed.

Lemma matches_report_entries_witness :
  Trie.getReplacement (Trie.build dict_coffee) (JS.lit "coffee")
  = Some (JS.lit "brew").
Proof.
  apply (matches_report_entries dict_coffee (JS.lit "I like coffee a lot")
           {| Trie.start := 7; Trie.end_ := 13;
              Trie.word := JS.lit "coffee";
              Trie.replacement := JS.lit "brew" |}).
  vm_compute. left.
Defined.

Section SweepMore.

Implicit Types (m a b c x : Trie.Match) (l : list Trie.Match) (e : Z).

(** A candidate the sweep drops starts before the cursor or inside a
    match the sweep accepts. *)
Lemma sweep_covers l e c :
  StronglySorted (λ a b, (Trie.start a < Trie.start b)%Z) l →
  c ∈ l →
  c ∈ Trie.sweep l e
  ∨ (Trie.start c < e)%Z
  ∨ ∃ m, m ∈ Trie.sweep l e ∧ (Trie.start m < Trie.start c < Trie.end_ m)%Z.
Proof.
  intros Hsorted. revert e.
  induction Hsorted as [|x l Hl IH Hx]; intros e; [by intros ?%elem_of_nil|].
  rewrite Forall_forall in Hx. simpl.
  destruct (Trie.start x >=? e)%Z eqn:Hge.
  - intros [->|Hc]%elem_of_cons; [left; left|].
    destruct (IH (Trie.end_ x) Hc) as [?|[?|(m & ? & ?)]].
    + left. by right.
    + right. right. exists x. split; [left|]. specialize (Hx c Hc). lia.
    + right. right. exists m. split; [by right|done].
  - intros [->|Hc]%elem_of_cons; [right; left; lia|].
    by apply IH.
Qed.

Lemma NoGaps_cons x l e (matches : list Trie.Match) :
  NoGaps l e matches → (Trie.start x < e)%Z →
  (∀ m, m ∈ matches → (Trie.start x < Trie.end_ m)%Z) →
  NoGaps (x :: l) e matches.
Proof.
  revert e. induction matches as [|m matches IH]; intros e; simpl.
  - intros Hl Hx _ c [->|Hc]%elem_of_cons; [done|by apply Hl].
  - intros [Hfirst Hrest] Hx Hends. split.
    + intros c [->|Hc]%elem_of_cons Hle; [lia|by apply Hfirst].
    + apply IH; [done|apply Hends; left|].
      intros m' Hm'. apply Hends. by right.
Qed.

(** The sweep leaves no candidate in the gaps between the matches it
    accepts. *)
Lemma sweep_NoGaps l e :
  StronglySorted (λ a b, (Trie.start a < Trie.start b)%Z) l →
  Forall (λ m, (Trie.start m < Trie.end_ m)%Z) l →
  NoGaps l e (Trie.sweep l e).
Proof.
  intros Hsorted. revert e.
  induction Hsorted as [|x l Hl IH Hx]; intros e Hpos; [by intros c ?%elem_of_nil|].
  apply Forall_cons in Hpos as [Hxpos Hpos].
  rewrite Forall_forall in Hx, Hpos.
  assert (∀ e' m, m ∈ Trie.sweep l e' → (Trie.start x < Trie.end_ m)%Z) as Hends.
  { intros e' m Hm%sweep_subset. specialize (Hx m Hm). specialize (Hpos m Hm).
    lia. }
  simpl. destruct (Trie.start x >=? e)%Z eqn:Hge; simpl.
  - split.
    + intros c [->|Hc]%elem_of_cons _; [lia|]. specialize (Hx c Hc). lia.
    + apply NoGaps_cons; [apply IH; by apply Forall_forall|done|apply Hends].
  - apply NoGaps_cons; [apply IH; by apply Forall_forall|lia|apply Hends].
Qed.

End SweepMore.

(** X8.  The matches [findAllMatches] returns are a maximal choice among
    the candidates: a candidate that is not returned starts strictly
    inside a match that is. *)
Theorem dropped_candidate_overlaps (t : Trie.Trie) (text : JSString)
    (c : Trie.Match) :
  c ∈ Trie.candidates t text →
  c ∈ Trie.findAllMatches t text
  ∨ ∃ m, m ∈ Trie.findAllMatches t text
         ∧ (Trie.start m < Trie.start c < Trie.end_ m)%Z.
Proof.
  intros Hc. rewrite findAllMatches_sweep.
  destruct (sweep_covers (Trie.candidates t text) (-1) c
              (candidates_Sorted t text) Hc) as [?|[Hneg|?]]; [by left| |by right].
  apply candidates_elem in Hc as (i & _ & [_ [? _]]%matchAt_within). lia.
Qed.

Lemma dropped_candidate_overlaps_witness :
  match_bc ∈ Trie.findAllMatches (Trie.build dict_bb_bc) (JS.lit "abbc")
  ∨ ∃ m, m ∈ Trie.findAllMatches (Trie.build dict_bb_bc) (JS.lit "abbc")
         ∧ (Trie.start m < Trie.start match_bc < Trie.end_ m)%Z.
Proof.
  apply dropped_candidate_overlaps. vm_compute. right. left.
Defined.

(** X9.  No two matches [findAllMatches] returns overlap, whether next
    to each other in the sequence or not, and the matches come by
    strictly increasing start. *)
Theorem matches_pairwise_disjoint (t : Trie.Trie) (text : JSString)
    (i j : nat) (a b : Trie.Match) :
  i < j →
  Trie.findAllMatches t text !! i = Some a →
  Trie.findAllMatches t text !! j = Some b →
  (Trie.start a < Trie.end_ a ≤ Trie.start b)%Z.
Proof.
  intros Hij Ha Hb. split.
  - apply list_elem_of_lookup_2, findAllMatches_candidate, candidates_elem
      in Ha as (k & _ & [_ [[_ ?] _]]%matchAt_within). done.
  - by eapply findAllMatches_disjoint.
Qed.

Lemma matches_pairwise_disjoint_witness :
  (0 < 1 ≤ 1)%Z.
Proof.
  apply (matches_pairwise_disjoint (Trie.build dict_a_ab) (JS.lit "aab") 0 1
           {| Trie.start := 0; Trie.end_ := 1;
              Trie.word := JS.lit "a"; Trie.replacement := JS.lit "x" |}
           {| Trie.start := 1; Trie.end_ := 3;
              Trie.word := JS.lit "ab"; Trie.replacement := JS.lit "y" |});
    [lia|by vm_compute|by vm_compute].
Defined.

(* ===================================================================== *)
(** ** More on the transforms: the result is a fixed point *)
(* ===================================================================== *)

Section Stable.

Implicit Types (trie : Trie.Trie) (n : TrieNode) (text rest : JSString)
  (m : Trie.Match) (matches : list Trie.Match) (p a b : nat).

(** A walk that records nothing in a text records nothing in a prefix of
    it. *)
Lemma walk_take_None n rest (j j' : Z) (k : nat) :
  Trie.walk n rest j None = None → Trie.walk n (take k rest) j' None = None.
Proof.
  revert n j j' k. induction rest as [|c rest IH]; intros n j j' [|k];
    simpl; try done.
  destruct (TrieNode.children n !! [c]) as [next|]; [|done].
  destruct (Trie.recordable next) as [[w r]|].
  - intros Hnone.
    destruct (walk_is_Some next rest (j + 1)
                (Some {| Trie.last_end := (j + 1)%Z; Trie.last_word := w;
                         Trie.last_replacement := r |})) as [lm Hlm]; [done|].
    congruence.
  - apply IH.
Qed.

Lemma matchAt_None_walk trie text (i : nat) :
  Trie.matchAt trie text i = None →
  Trie.walk (Trie.root trie) (drop i text) (Z.of_nat i) None = None.
Proof. unfold Trie.matchAt. by destruct (Trie.walk _ _ _ _). Qed.

(** A stretch of the text in which no candidate starts holds no match
    when it is searched on its own. *)
Lemma findAllMatches_gap trie text a b :
  a ≤ b ≤ length text →
  (∀ i : nat, a ≤ i < b → Trie.matchAt trie text i = None) →
  Trie.findAllMatches trie (take (b - a) (drop a text)) = [].
Proof.
  intros Hab Hnone. unfold Trie.findAllMatches, Trie.candidates.
  rewrite omap_None; [done|].
  intros i Hi%elem_of_seq. rewrite length_take, length_drop in Hi.
  unfold Trie.matchAt.
  replace (drop i (take (b - a) (drop a text)))
    with (take (b - a - i) (drop (a + i) text)).
  - rewrite (walk_take_None _ _ (Z.of_nat (a + i))); [done|].
    apply matchAt_None_walk, Hnone. lia.
  - rewrite <-drop_drop, take_drop_commute.
    by replace (i + (b - a - i)) with (b - a) by lia.
Qed.

Lemma matchAt_None_of_candidates trie text (i : nat) :
  i < length text →
  (∀ c, c ∈ Trie.candidates trie text → Trie.start c ≠ Z.of_nat i) →
  Trie.matchAt trie text i = None.
Proof.
  intros Hi Hnone.
  destruct (Trie.matchAt trie text i) as [c|] eqn:Hc; [|done].
  destruct (Hnone c).
  - apply candidates_elem. by exists i.
  - by apply matchAt_within in Hc as [? _].
Qed.

(** The plain leaves among the pieces hold no match. *)
Lemma pieces_no_match trie text matches p (leaf : JSString) :
  NoGaps (Trie.candidates trie text) (Z.of_nat p) matches →
  Chained (Z.of_nat p) matches (Z.of_nat (length text)) →
  p ≤ length text →
  TextNode leaf ∈ pieces text p matches →
  Trie.findAllMatches trie leaf = [].
Proof.
  revert p. induction matches as [|m matches IH]; intros p Hgaps Hch Hp; simpl.
  - destruct (decide (p < length text)); [|by intros ?%elem_of_nil].
    intros [= ->]%list_elem_of_singleton.
    rewrite <-(take_ge (drop p text) (length text - p))
      by (rewrite length_drop; lia).
    apply findAllMatches_gap; [lia|].
    intros i Hi. apply matchAt_None_of_candidates; [lia|].
    intros c Hc. simpl in Hgaps. specialize (Hgaps c Hc). lia.
  - destruct Hgaps as [Hfirst Hgaps]. destruct Hch as [[[Hps Hse] Hel] Hch].
    set (s := Z.to_nat (Trie.start m)). set (e := Z.to_nat (Trie.end_ m)).
    intros [Hbefore|[Hspan|Hrest]%elem_of_cons]%elem_of_app.
    + destruct (decide (p < s)); [|by apply elem_of_nil in Hbefore].
      apply list_elem_of_singleton in Hbefore as [= ->].
      apply findAllMatches_gap; [lia|].
      intros i Hi. apply matchAt_None_of_candidates; [lia|].
      intros c Hc Hstart. specialize (Hfirst c Hc). lia.
    + done.
    + apply (IH e); [| |lia|done].
      * by replace (Z.of_nat e) with (Trie.end_ m) by lia.
      * by replace (Z.of_nat e) with (Trie.end_ m) by lia.
Qed.

Lemma findAllMatches_NoGaps trie text :
  NoGaps (Trie.candidates trie text) 0 (Trie.findAllMatches trie text).
Proof.
  rewrite findAllMatches_sweep.
  pose proof (sweep_NoGaps (Trie.candidates trie text) (-1)
                (candidates_Sorted trie text)) as Hgaps.
  assert (Forall (λ m, (Trie.start m < Trie.end_ m)%Z)
            (Trie.candidates trie text)) as Hpos.
  { apply Forall_forall.
    intros m (i & _ & [_ [[_ ?] _]]%matchAt_within)%candidates_elem. done. }
  specialize (Hgaps Hpos).
  destruct (Trie.sweep (Trie.candidates trie text) (-1)) as [|m matches];
    simpl in *.
  - intros c Hc.
    pose proof Hc as (i & _ & [_ [[? _] _]]%matchAt_within)%candidates_elem.
    specialize (Hgaps c Hc). lia.
  - destruct Hgaps as [Hfirst Hrest]. split; [|done].
    intros c Hc _. apply Hfirst; [done|].
    apply candidates_elem in Hc as (i & _ & [_ [[? _] _]]%matchAt_within).
    lia.
Qed.

(** A piece is a plain leaf or the span of one of the matches. *)
Lemma pieces_elem text matches p (node : LexicalNode) :
  node ∈ pieces text p matches →
  (∃ leaf, node = TextNode leaf)
  ∨ ∃ m, m ∈ matches
         ∧ node = ForeignWordNode (Trie.word m) (Trie.replacement m).
Proof.
  revert p. induction matches as [|m matches IH]; intros p; simpl.
  - destruct (decide _); [|by intros ?%elem_of_nil].
    intros ->%list_elem_of_singleton. left. eauto.
  - intros [Hbefore|[->|Hrest]%elem_of_cons]%elem_of_app.
    + destruct (decide _); [|by apply elem_of_nil in Hbefore].
      apply list_elem_of_singleton in Hbefore as ->. left. eauto.
    + right. exists m. split; [left|done].
    + apply IH in Hrest as [?|(m' & ? & ?)]; [by left|].
      right. exists m'. split; [by right|done].
Qed.

Lemma findAllMatches_search (data : Dictionary) text m :
  m ∈ Trie.findAllMatches (Trie.build data) text →
  Trie.search (Trie.build data) (Trie.word m) = true.
Proof.
  intros Hm%findAllMatches_candidate.
  apply candidates_are_entries in Hm as (Hin & _).
  apply search_build. by exists (Trie.replacement m).
Qed.

End Stable.

(** X10.  Whatever the trie, the text and the siblings, the TextNode
    transform of a plain text node raises no exception and puts in the
    place of the node the text before each match, if any, the span of
    the match, and the text after the last match, if any; the siblings
    before and after stay as they are. *)
Theorem forward_transform_shape (trie : Trie.Trie)
    (pre post : list LexicalNode) (text : JSString) :
  text ≠ [] →
  Span.textNodeTransform trie (pre ++ TextNode text :: post) (length pre)
  = Some (pre ++ pieces text 0 (Trie.findAllMatches trie text) ++ post).
Proof. apply textNodeTransform_pieces. Qed.

Lemma forward_transform_shape_witness :
  Span.textNodeTransform (Trie.build dict_bb_bc)
    ([LeafNode] ++ TextNode (JS.lit "abbc") :: [LeafNode]) 1
  = Some [LeafNode; TextNode (JS.lit "a");
          ForeignWordNode (JS.lit "bb") (JS.lit "1");
          TextNode (JS.lit "c"); LeafNode].
Proof.
  by apply (forward_transform_shape (Trie.build dict_bb_bc)
              [LeafNode] [LeafNode] (JS.lit "abbc")).
Defined.

(** X11.  One run of the TextNode transform is enough: run again on any
    of the leaves it has put in the place of the node, it changes
    nothing, because the plain leaves it leaves hold no match. *)
Theorem forward_transform_stable (trie : Trie.Trie)
    (pre post : list LexicalNode) (text : JSString) (k : nat) :
  k < length (pieces text 0 (Trie.findAllMatches trie text)) →
  Span.textNodeTransform trie
    (pre ++ pieces text 0 (Trie.findAllMatches trie text) ++ post)
    (length pre + k)
  = Some (pre ++ pieces text 0 (Trie.findAllMatches trie text) ++ post).
Proof.
  intros Hk. unfold Span.textNodeTransform.
  destruct (lookup_lt_is_Some_2 _ _ Hk) as [node Hnode].
  rewrite lookup_app_r by lia.
  replace (length pre + k - length pre) with k by lia.
  rewrite lookup_app_l by done. rewrite Hnode.
  destruct node as [leaf| | |]; try done.
  rewrite (pieces_no_match trie text (Trie.findAllMatches trie text) 0 leaf).
  - simpl. by destruct (decide (leaf = [])).
  - apply findAllMatches_NoGaps.
  - apply findAllMatches_Chained.
  - lia.
  - by eapply list_elem_of_lookup_2.
Qed.

Lemma forward_transform_stable_witness :
  Span.textNodeTransform (Trie.build dict_coffee) coffee_leaves 2
  = Some coffee_leaves.
Proof.
  apply (forward_transform_stable (Trie.build dict_coffee) [] []
           (JS.lit "I like coffee a lot") 2).
  vm_compute. lia.
Defined.

(** X12.  With the trie built from a dictionary, the TextNode transform
    keeps the text: the text contents of the siblings afterwards, one
    after the other, are those of the siblings before. *)
Theorem forward_transform_keeps_text (data : Dictionary)
    (pre post : list LexicalNode) (text : JSString) :
  ∃ sibs,
    Span.textNodeTransform (Trie.build data) (pre ++ TextNode text :: post)
      (length pre) = Some sibs
    ∧ textContent sibs = textContent (pre ++ TextNode text :: post).
Proof. apply textNodeTransform_textContent. Qed.

(** X13.  With the trie built from a dictionary, the ForeignWordNode
    transform leaves every leaf as it is that the TextNode transform has
    put in the place of a text node: the two transforms do not undo each
    other. *)
Theorem forward_then_reverse (data : Dictionary) (text : JSString)
    (node : LexicalNode) :
  node ∈ pieces text 0 (Trie.findAllMatches (Trie.build data) text) →
  Span.foreignWordTransform (Trie.build data) node = node.
Proof.
  intros [[leaf ->]|(m & Hm & ->)]%pieces_elem; [done|].
  simpl. by rewrite (findAllMatches_search data text m Hm).
Qed.

Lemma forward_then_reverse_witness :
  Span.foreignWordTransform (Trie.build dict_coffee)
    (ForeignWordNode (JS.lit "coffee") (JS.lit "brew"))
  = ForeignWordNode (JS.lit "coffee") (JS.lit "brew").
Proof.
  apply (forward_then_reverse dict_coffee (JS.lit "I like coffee a lot")).
  vm_compute. right. left.
Defined.

(* ===================================================================== *)
(** ** More on the data-unique pass *)
(* ===================================================================== *)

Section UniqueMore.

Variable entropy : nat → Unique.Entropy.

Implicit Types (node child : LexicalNode) (blocks : list LexicalNode)
  (st : Unique.Pass) (value : JSString).

Lemma assignFresh_spec node st :
  ∃ node' st' b,
    Unique.assignFresh entropy node st = (node', st', b)
    ∧ withoutUnique node' = withoutUnique node
    ∧ Unique.generated st' = S (Unique.generated st)
    ∧ (∀ v, v ∈ Unique.existingValues st → v ∈ Unique.existingValues st')
    ∧ (Unique.getNodeDOMElement node = None → node' = node)
    ∧ (Unique.getNodeDOMElement node ≠ None →
       Unique.getUniqueAttributeValue node'
       = Some (Unique.generateUniqueId Unique.Prefix_UNIQUE
                 (entropy (Unique.generated st)))).
Proof.
  unfold Unique.assignFresh.
  destruct node as [text|text repl| |attributes [dom|] children]; simpl;
    eexists _, _, _; (split; [done|]); simpl;
    repeat split; try done; try (intros v Hv; apply setAdd_elem; by right).
  - by rewrite delete_insert_eq.
  - intros _. unfold Unique.getUniqueAttributeValue. simpl.
    by rewrite lookup_insert_eq.
Qed.

Lemma assignAll_nil st : Unique.assignAll entropy [] st = ([], st).
Proof. done. Qed.

Lemma assignAll_cons child blocks st :
  Unique.assignAll entropy (child :: blocks) st
  = let '(child', st', _) :=
      Unique.assignUniqueAttributeIfNeeded entropy child st in
    let '(rest, st'') := Unique.assignAll entropy blocks st' in
    (child' :: rest, st'').
Proof. done. Qed.

(** One call of [assignUniqueAttributeIfNeeded] changes nothing of a node
    but the data-unique attribute of its DOM element, and takes nothing
    out of the set. *)
Lemma assignUniqueAttributeIfNeeded_spec node st :
  ∃ node' st' b,
    Unique.assignUniqueAttributeIfNeeded entropy node st = (node', st', b)
    ∧ withoutUnique node' = withoutUnique node
    ∧ (∀ v, v ∈ Unique.existingValues st → v ∈ Unique.existingValues st').
Proof.
  unfold Unique.assignUniqueAttributeIfNeeded.
  destruct (negb (Lexical.isElementNode node)); [by eexists _, _, _|].
  destruct (Unique.getUniqueAttributeValue node) as [v|].
  - destruct (JS.truthy (Some v) && negb (JS.setHas v (Unique.existingValues st))).
    + eexists _, _, _. split; [done|]. split; [done|].
      intros v' Hv'. apply setAdd_elem. by right.
    + destruct (assignFresh_spec node st) as (n' & st' & b & -> & ? & _ & ? & _).
      by eexists _, _, _.
  - destruct (assignFresh_spec node st) as (n' & st' & b & -> & ? & _ & ? & _).
    by eexists _, _, _.
Qed.

Lemma assignAll_withoutUnique blocks st :
  withoutUnique <$> (Unique.assignAll entropy blocks st).1
  = withoutUnique <$> blocks.
Proof.
  revert st. induction blocks as [|b blocks IH]; intros st; [done|].
  rewrite assignAll_cons.
  destruct (assignUniqueAttributeIfNeeded_spec b st)
    as (b' & st' & r & -> & Hb & _).
  specialize (IH st').
  destruct (Unique.assignAll entropy blocks st') as [rest st''].
  simpl in IH. cbn [fst]. by rewrite !fmap_cons, Hb, IH.
Qed.

(** With every value in the set before the loop starts, every node with
    a DOM element comes out of the loop with an identifier generated
    during the loop. *)
Lemma assignAll_assigned blocks st child' :
  Collected blocks (Unique.existingValues st) →
  child' ∈ (Unique.assignAll entropy blocks st).1 →
  Lexical.isElementNode child' = true →
  Unique.getNodeDOMElement child' ≠ None →
  ∃ k, Unique.generated st ≤ k < Unique.generated st + length blocks
       ∧ Unique.getUniqueAttributeValue child'
         = Some (Unique.generateUniqueId Unique.Prefix_UNIQUE (entropy k)).
Proof.
  revert st. induction blocks as [|b blocks IH]; intros st Hcol.
  { by intros ?%elem_of_nil. }
  rewrite assignAll_cons.
  rewrite assignUniqueAttributeIfNeeded_collected; last first.
  { intros c v ->%list_elem_of_singleton. apply Hcol. left. }
  destruct (Lexical.isElementNode b) eqn:Hb.
  - destruct (assignFresh_spec b st)
      as (b' & st' & r & -> & Hwo & Hgen & Hmono & Hnodom & Hdom).
    assert (Collected blocks (Unique.existingValues st')) as Hcol'.
    { intros c v Hc Hv Hne. apply Hmono, (Hcol c); [by right|done..]. }
    specialize (IH st' Hcol').
    destruct (Unique.assignAll entropy blocks st') as [rest st''].
    simpl in *. intros [->|Hin]%elem_of_cons Helem Hd.
    + exists (Unique.generated st). split; [lia|]. apply Hdom.
      intros Hnone. apply Hd. by rewrite (Hnodom Hnone).
    + destruct (IH Hin Helem Hd) as (k & Hk & Hv).
      exists k. split; [lia|done].
  - assert (Collected blocks (Unique.existingValues st)) as Hcol'.
    { intros c v Hc Hv Hne. apply (Hcol c); [by right|done..]. }
    specialize (IH st Hcol').
    destruct (Unique.assignAll entropy blocks st) as [rest st''].
    simpl in *. intros [->|Hin]%elem_of_cons Helem Hd.
    + congruence.
    + destruct (IH Hin Helem Hd) as (k & Hk & Hv).
      exists k. split; [lia|done].
Qed.

End UniqueMore.

(** X14.  A pass of [processAllRootChildren] changes nothing of the tree
    but the data-unique attribute of the DOM elements of the top-level
    nodes: the top-level nodes are as many as before and, that attribute
    set aside, the same. *)
Theorem pass_changes_only_data_unique (entropy : nat → Unique.Entropy)
    (root : LexicalNode) :
  withoutUnique <$> Unique.processAllRootChildren entropy root
  = withoutUnique <$> Unique.getChildren root.
Proof. apply assignAll_withoutUnique. Qed.

(** X15.  After a pass of [processAllRootChildren], every top-level
    element that has a DOM element carries a data-unique value, which is
    an identifier generated during the pass and so starts with
    "unique-". *)
Theorem pass_assigns_every_block (entropy : nat → Unique.Entropy)
    (root child : LexicalNode) :
  child ∈ Unique.processAllRootChildren entropy root →
  Lexical.isElementNode child = true →
  Unique.getNodeDOMElement child ≠ None →
  ∃ value,
    Unique.getUniqueAttributeValue child = Some value
    ∧ value ∈ generatedIds entropy 0 (length (Unique.getChildren root))
    ∧ JS.lit "unique-" `prefix_of` value.
Proof.
  intros Hin Helem Hdom.
  destruct (assignAll_assigned entropy (Unique.getChildren root)
              {| Unique.existingValues := Unique.collectExistingUniqueValues root;
                 Unique.generated := 0 |} child) as (k & Hk & Hv); try done.
  { apply collectExistingUniqueValues_collected. }
  eexists. split; [exact Hv|]. split.
  - unfold generatedIds. apply list_elem_of_fmap. exists k.
    split; [done|]. apply elem_of_seq. simpl in Hk. lia.
  - unfold Unique.generateUniqueId. by eexists.
Qed.

Lemma pass_assigns_every_block_witness :
  ∃ value,
    Unique.getUniqueAttributeValue
      (ElementNode ∅
         (Some {[ Unique.DATA_UNIQUE_ATTRIBUTE :=
                    JS.lit "unique-1700000000000-k3x9q2m1z" ]}) [])
    = Some value
    ∧ value ∈ generatedIds tickingEntropy 0 1
    ∧ JS.lit "unique-" `prefix_of` value.
Proof.
  apply (pass_assigns_every_block tickingEntropy (rootOf [block None])).
  - vm_compute. left.
  - reflexivity.
  - discriminate.
Defined.

Section Identifiers.

Implicit Types (s : string) (l r : JSString) (e : Unique.Entropy).

Lemma lit_inj s1 s2 : JS.lit s1 = JS.lit s2 → s1 = s2.
Proof.
  unfold JS.lit. intros H.
  rewrite <-(String.string_of_list_ascii_of_string s1),
    <-(String.string_of_list_ascii_of_string s2).
  f_equal. revert H.
  generalize (String.list_ascii_of_string s1) (String.list_ascii_of_string s2).
  intros l1. induction l1 as [|a l1 IH]; intros [|b l2]; simpl; try done.
  intros [= Hab Hl]. f_equal; [|by apply IH].
  rewrite <-(Ascii.ascii_N_embedding a), <-(Ascii.ascii_N_embedding b).
  by rewrite Hab.
Qed.

Lemma lit_String a s :
  JS.lit (String a s) = Ascii.N_of_ascii a :: JS.lit s.
Proof. done. Qed.

Lemma pretty_N_char_digit (x : N) : isDigit (Ascii.N_of_ascii (pretty_N_char x)).
Proof.
  unfold isDigit, pretty_N_char. repeat case_match; simpl; lia.
Qed.

Lemma pretty_N_go_digits (x : N) s :
  Forall isDigit (JS.lit s) → Forall isDigit (JS.lit (pretty_N_go x s)).
Proof.
  revert s. induction (N.lt_wf_0 x) as [x _ IH]; intros s Hs.
  assert (x = 0 ∨ 0 < x)%N as [->|Hx] by lia.
  - by rewrite pretty_N_go_0.
  - rewrite pretty_N_go_step by done. apply IH.
    + by apply N.div_lt.
    + rewrite lit_String. constructor; [apply pretty_N_char_digit|done].
Qed.

(** The decimal writing of a number is made of digits. *)
Lemma pretty_N_digits (x : N) : Forall isDigit (JS.lit (pretty x)).
Proof.
  unfold pretty, pretty_N. destruct (decide (x = 0)%N).
  - repeat constructor; unfold isDigit; simpl; lia.
  - apply pretty_N_go_digits. constructor.
Qed.

Lemma split_at_first (x : N) (l1 l2 r1 r2 : JSString) :
  x ∉ l1 → x ∉ l2 → l1 ++ x :: r1 = l2 ++ x :: r2 → l1 = l2 ∧ r1 = r2.
Proof.
  revert l2. induction l1 as [|a l1 IH]; intros [|b l2] H1 H2; simpl.
  - by intros [= ->].
  - intros [= <- _]. destruct H2. left.
  - intros [= -> _]. destruct H1. left.
  - intros [= -> Heq].
    destruct (IH l2) as [-> ->]; [| |done|done].
    + intros ?. apply H1. by right.
    + intros ?. apply H2. by right.
Qed.

Lemma generateUniqueId_inj prefix e1 e2 :
  Unique.generateUniqueId prefix e1 = Unique.generateUniqueId prefix e2 →
  e1 = e2.
Proof.
  unfold Unique.generateUniqueId. intros H.
  apply app_inv_head in H. simpl in H. injection H as H.
  apply (split_at_first 45%N) in H as [Hnow Hrandom].
  - apply lit_inj, (inj pretty) in Hnow.
    destruct e1, e2. simpl in *. by subst.
  - intros Hin. pose proof (pretty_N_digits (Unique.now e1)) as Hd.
    rewrite Forall_forall in Hd. specialize (Hd _ Hin). unfold isDigit in Hd. lia.
  - intros Hin. pose proof (pretty_N_digits (Unique.now e2)) as Hd.
    rewrite Forall_forall in Hd. specialize (Hd _ Hin). unfold isDigit in Hd. lia.
Qed.

End Identifiers.

(** X16.  [generateUniqueId] loses nothing of what it reads: with the
    same prefix, two identifiers are equal only when the timestamps are
    the same and the random suffixes are the same. *)
Theorem identifiers_differ (prefix : JSString) (e1 e2 : Unique.Entropy) :
  Unique.generateUniqueId prefix e1 = Unique.generateUniqueId prefix e2 ↔
  Unique.now e1 = Unique.now e2 ∧ Unique.random e1 = Unique.random e2.
Proof.
  split.
  - by intros ->%generateUniqueId_inj.
  - destruct e1, e2. simpl. by intros [-> ->].
Qed.

(** X17.  When no two calls of [generateUniqueId] during a pass of
    [processAllRootChildren] read the same timestamp together with the
    same random suffix, the data-unique values of the top-level nodes
    are pairwise distinct after the pass. *)
Theorem distinct_entropy_distinct_blocks (entropy : nat → Unique.Entropy)
    (root : LexicalNode) :
  NoDup (entropy <$> seq 0 (length (Unique.getChildren root))) →
  NoDup (Unique.uniqueIds (Unique.processAllRootChildren entropy root)).
Proof.
  intros Hnd.
  eapply sublist_NoDup; [|apply processAllRootChildren_generated].
  unfold generatedIds.
  rewrite (list_fmap_compose entropy
             (Unique.generateUniqueId Unique.Prefix_UNIQUE)).
  apply NoDup_fmap_2; [|done].
  intros e1 e2. apply generateUniqueId_inj.
Qed.

Lemma distinct_entropy_distinct_blocks_witness :
  NoDup (Unique.uniqueIds
           (Unique.processAllRootChildren tickingEntropy
              (rootOf [block (Some "unique-1-a"); block (Some "unique-1-a")]))).
Proof.
  apply distinct_entropy_distinct_blocks. simpl.
  apply NoDup_cons. split.
  - intros [=]%list_elem_of_singleton.
  - apply NoDup_singleton.
Defined.

Section MutatedFacts.

Variable entropy : nat → Unique.Entropy.

Implicit Types (mutations : list (JSString * Unique.MutationType))
  (nodeMap : gmap JSString LexicalNode) (st : Unique.Pass) (key : JSString).

Lemma assignMutated_untouched mutations nodeMap st key :
  (∀ mutation, (key, mutation) ∈ mutations → mutation = Unique.destroyed) →
  (Unique.assignMutated entropy mutations nodeMap st).1 !! key
  = nodeMap !! key.
Proof.
  revert nodeMap st.
  induction mutations as [|[k mutation] mutations IH]; intros nodeMap st Hkey;
    [done|].
  assert (∀ mutation', (key, mutation') ∈ mutations →
                       mutation' = Unique.destroyed) as Hrest.
  { intros mutation' Hin. apply Hkey. by right. }
  simpl.
  destruct mutation; try (by apply IH);
    (destruct (nodeMap !! k) as [node|] eqn:Hk; [|by apply IH]);
    (destruct (Unique.assignUniqueAttributeIfNeeded entropy node st)
       as [[node' st'] b]);
    (rewrite IH by done);
    (apply lookup_insert_ne; intros ->);
    [specialize (Hkey Unique.created)|specialize (Hkey Unique.updated)];
    by discriminate Hkey; left.
Qed.

Lemma assignMutated_withoutUnique mutations nodeMap st key :
  withoutUnique <$> (Unique.assignMutated entropy mutations nodeMap st).1 !! key
  = withoutUnique <$> nodeMap !! key.
Proof.
  revert nodeMap st.
  induction mutations as [|[k mutation] mutations IH]; intros nodeMap st;
    [done|].
  assert (∀ node,
            nodeMap !! k = Some node →
            (let '(node', st', _) :=
               Unique.assignUniqueAttributeIfNeeded entropy node st in
             withoutUnique
               <$> (Unique.assignMutated entropy mutations
                      (<[k := node']> nodeMap) st').1 !! key)
            = withoutUnique <$> nodeMap !! key) as Hstep.
  { intros node Hk.
    destruct (assignUniqueAttributeIfNeeded_spec entropy node st)
      as (node' & st' & b & -> & Hwo & _).
    rewrite IH. destruct (decide (key = k)) as [->|Hne].
    - rewrite lookup_insert_eq, Hk. simpl. by rewrite Hwo.
    - by rewrite lookup_insert_ne. }
  simpl. destruct mutation; try apply IH;
    (destruct (nodeMap !! k) as [node|] eqn:Hk; [|by apply IH]);
    specialize (Hstep node eq_refl);
    by destruct (Unique.assignUniqueAttributeIfNeeded entropy node st)
      as [[node' st'] b].
Qed.




End MutatedFacts.

(** X18.  [processMutatedNodes] leaves alone every node that has no
    created or updated mutation, a destroyed one for instance, and of
    the nodes it visits it changes nothing but the data-unique attribute
    of the DOM element; no node enters or leaves the node map. *)
Theorem mutated_pass_changes_only_data_unique
    (entropy : nat → Unique.Entropy) (root : LexicalNode)
    (mutations : list (JSString * Unique.MutationType))
    (nodeMap : gmap JSString LexicalNode) (key : JSString) :
  ((∀ mutation, (key, mutation) ∈ mutations → mutation = Unique.destroyed) →
   Unique.processMutatedNodes entropy root mutations nodeMap !! key
   = nodeMap !! key)
  ∧ withoutUnique
      <$> Unique.processMutatedNodes entropy root mutations nodeMap !! key
    = withoutUnique <$> nodeMap !! key.
Proof.
  split.
  - apply assignMutated_untouched.
  - apply assignMutated_withoutUnique.
Qed.

Lemma mutated_pass_changes_only_data_unique_witness :
  Unique.processMutatedNodes tickingEntropy (rootOf [block None])
    [(JS.lit "1", Unique.destroyed); (JS.lit "2", Unique.created)]
    {[ JS.lit "1" := block None; JS.lit "2" := block None ]}
  !! JS.lit "1"
  = ({[ JS.lit "1" := block None; JS.lit "2" := block None ]}
       : gmap JSString LexicalNode) !! JS.lit "1".
Proof.
  apply (mutated_pass_changes_only_data_unique tickingEntropy).
  intros mutation [[= ->]|[[=]|[]%elem_of_nil]%elem_of_cons]%elem_of_cons.
  done.
Defined.



(* ===================================================================== *)
(** ** More on the tracker *)
(* ===================================================================== *)

Section TrackerMore.

Implicit Types (mutations : list (JSString * Tracker.NodeMutation))
  (nodeMap : gmap JSString LexicalNode) (id attributeName : JSString)
  (calls : list JSString).

Lemma handleNodeMutations_from mutations nodeMap attributeName calls id :
  id ∈ Tracker.handleNodeMutations mutations nodeMap attributeName
         Tracker.logCall calls
  ↔ id ∈ calls
    ∨ ∃ key node,
        (key, Tracker.destroyed) ∈ mutations
        ∧ nodeMap !! key = Some node
        ∧ Tracker.getNodeAttribute node attributeName = Some id
        ∧ id ≠ [].
Proof.
  unfold Tracker.handleNodeMutations. revert calls.
  induction mutations as [|[key mutation] mutations IH]; intros calls; simpl.
  - split; [auto|]. intros [?|(? & ? & []%elem_of_nil & _)]. done.
  - rewrite IH. clear IH. split.
    + intros [Hin|(k & node & Hk & ?)].
      * destruct mutation; try (by left).
        destruct (nodeMap !! key) as [node|] eqn:Hkey; [|by left].
        destruct (Tracker.getNodeAttribute node attributeName)
          as [[|u v]|] eqn:Hattr; simpl in Hin; try (by left).
        unfold Tracker.logCall in Hin.
        apply elem_of_app in Hin as [?|Hin%list_elem_of_singleton];
          [by left|subst id].
        right. exists key, node. split; [left|done].
      * right. exists k, node. split; [by right|done].
    + intros [Hin|(k & node & [Heq|Hk]%elem_of_cons & Hnode & Hattr & Hne)];
        [|injection Heq as -> <-|].
      * left. destruct mutation; try done.
        destruct (nodeMap !! key) as [node|]; [|done].
        destruct (Tracker.getNodeAttribute node attributeName) as [[|u v]|];
          simpl; try done.
        unfold Tracker.logCall. apply elem_of_app. by left.
      * left. rewrite Hnode, Hattr. destruct id; [done|]. simpl.
        unfold Tracker.logCall. apply elem_of_app. right. left.
      * right. by exists k, node.
Qed.

Lemma handleNodeMutations_length mutations nodeMap attributeName calls :
  length (Tracker.handleNodeMutations mutations nodeMap attributeName
            Tracker.logCall calls)
  ≤ length calls
    + length (filter (λ entry, entry.2 = Tracker.destroyed) mutations).
Proof.
  unfold Tracker.handleNodeMutations. revert calls.
  induction mutations as [|[key mutation] mutations IH]; intros calls; simpl.
  - lia.
  - rewrite filter_cons. simpl.
    destruct mutation; try (rewrite decide_False by done; apply IH).
    rewrite decide_True by done. simpl.
    destruct (nodeMap !! key) as [node|]; [|etrans; [apply IH|lia]].
    destruct (Tracker.getNodeAttribute node attributeName) as [[|u v]|];
      simpl; try (etrans; [apply IH|lia]).
    etrans; [apply IH|]. unfold Tracker.logCall. rewrite length_app. simpl. lia.
Qed.

End TrackerMore.

(** X20.  [handleNodeMutations] calls the deletion callback with an id
    exactly when a destroyed key of the mutations is in the node map
    with an element that carries the id, not empty, in the configured
    attribute; created and updated nodes, destroyed nodes that are not
    elements and destroyed keys missing from the node map cause no call,
    and the calls are no more than the destroyed keys. *)
Theorem mutation_callback_calls
    (mutations : list (JSString * Tracker.NodeMutation))
    (nodeMap : gmap JSString LexicalNode) (attributeName id : JSString) :
  (id ∈ Tracker.handleNodeMutations mutations nodeMap attributeName
          Tracker.logCall []
   ↔ ∃ key attributes dom children,
       (key, Tracker.destroyed) ∈ mutations
       ∧ nodeMap !! key = Some (ElementNode attributes dom children)
       ∧ attributes !! attributeName = Some id
       ∧ id ≠ [])
  ∧ length (Tracker.handleNodeMutations mutations nodeMap attributeName
              Tracker.logCall [])
    ≤ length (filter (λ entry, entry.2 = Tracker.destroyed) mutations).
Proof.
  split; [|apply (handleNodeMutations_length _ _ _ [])].
  rewrite handleNodeMutations_from, elem_of_nil. split.
  - intros [[]|(key & node & Hk & Hnode & Hattr & Hne)].
    destruct node as [| | |attributes dom children]; try done.
    by exists key, attributes, dom, children.
  - intros (key & attributes & dom & children & Hk & Hnode & Hattr & Hne).
    right. by exists key, (ElementNode attributes dom children).
Qed.

(** X21.  An update after which every id of the previous state is still
    among the ids of the current state, one that changes no id for
    instance, calls the deletion callback not once: the state of the
    receiver is as it was, whatever the callback. *)
Theorem no_id_lost_no_call {Sink : Type}
    (editorState prevEditorState : LexicalNode) (attributeName : JSString)
    (onWordDeleted : JSString → Sink → Sink) (sink : Sink) :
  (∀ id, id ∈ Tracker.collectWordIds prevEditorState attributeName →
         id ∈ Tracker.collectWordIds editorState attributeName) →
  Tracker.handleEditorUpdate editorState prevEditorState attributeName
    onWordDeleted sink = sink.
Proof.
  intros Hkept. unfold Tracker.handleEditorUpdate.
  rewrite (elem_of_nil_inv
             (Tracker.findDeletedWordIds
                (Tracker.collectWordIds prevEditorState attributeName)
                (Tracker.collectWordIds editorState attributeName))); [done|].
  intros id [Hprev Hcur]%findDeletedWordIds_elem. by apply Hcur, Hkept.
Qed.

Lemma no_id_lost_no_call_witness :
  Tracker.handleEditorUpdate
    (stateOf [originWord "orig-1" "bonjour!"])
    (stateOf [originWord "orig-1" "bonjour"])
    (JS.lit "originid") Tracker.logCall []
  = [].
Proof.
  apply no_id_lost_no_call. intros id Hid.
  vm_compute in Hid. vm_compute. exact Hid.
Defined.

(* ===================================================================== *)
(** ** ForeignWordNode: export and import *)
(* ===================================================================== *)

(** X22.  What [exportDOM] writes, [importDOM] reads back: the span of a
    node with text [text] and replacement [replacement], either of which
    may be empty, is converted into a ForeignWordNode with the same text
    and the same replacement.  A span without the attribute
    data-foreign-word or without the attribute data-replacement is not
    converted. *)
Theorem export_import_round_trip (text replacement : JSString) :
  ForeignWordNode.importDOM (ForeignWordNode.exportDOM text replacement)
  = Some (ForeignWordNode text replacement)
  ∧ (∀ element,
        ForeignWordNode.getAttribute (JS.lit "data-foreign-word") element = None
        ∨ ForeignWordNode.getAttribute (JS.lit "data-replacement") element = None →
        ForeignWordNode.importDOM element = None).
Proof.
  split.
  - unfold ForeignWordNode.importDOM, ForeignWordNode.exportDOM. simpl.
    unfold ForeignWordNode.hasAttribute,
      ForeignWordNode.convertForeignWordElement, ForeignWordNode.getAttribute.
    simpl. rewrite lookup_insert_eq.
    rewrite bool_decide_eq_true_2; [done|].
    rewrite lookup_insert_ne by done. by rewrite lookup_insert_eq.
  - intros element Hmissing. unfold ForeignWordNode.importDOM.
    destruct (decide _); [|done].
    unfold ForeignWordNode.hasAttribute,
      ForeignWordNode.convertForeignWordElement.
    unfold ForeignWordNode.getAttribute in Hmissing.
    destruct Hmissing as [Hm|Hm].
    + rewrite Hm. rewrite bool_decide_eq_false_2; [done|].
      by intros [? ?].
    + destruct (negb _); [done|].
      unfold ForeignWordNode.getAttribute. by rewrite Hm.
Qed.

Lemma export_import_round_trip_witness :
  ForeignWordNode.importDOM (ForeignWordNode.createElement (JS.lit "span"))
  = None.
Proof.
  destruct (export_import_round_trip [] []) as [_ H].
  apply H. by left.
Defined.

(* ===================================================================== *)
(** ** More on the overlap removal: any input *)
(* ===================================================================== *)

Section AnyInput.

Implicit Types (m a b x : Trie.Match) (l : list Trie.Match) (e : Z).

#[local] Instance MayPrecede_trans : Transitive MayPrecede.
Proof. intros a b c. rewrite !MayPrecede_spec. lia. Qed.




End AnyInput.



(* ===================================================================== *)
(** ** The dictionary of the plugin *)
(* ===================================================================== *)

Section Shipped.

Lemma foreignWordsData_Matchable : Forall Matchable Data.foreignWordsData.
Proof. repeat (constructor; [split; [by vm_compute|by vm_compute]|]). constructor. Qed.

Lemma foreignWordsData_found :
  Forall (λ entry,
            Trie.search Data.foreignWordTrie entry.1 = true
            ∧ Trie.getReplacement Data.foreignWordTrie entry.1 = Some entry.2)
    Data.foreignWordsData.
Proof. repeat (constructor; [split; by vm_compute|]). constructor. Qed.

Lemma foreignWordsData_replacements_plain :
  Forall (λ entry, Trie.findAllMatches Data.foreignWordTrie entry.2 = [])
    Data.foreignWordsData.
Proof. repeat (constructor; [by vm_compute|]). constructor. Qed.

End Shipped.

(** X24.  The dictionary the plugin ships, [foreignWordsData], meets the
    conditions of the matcher: no term has a surrogate pair, no
    replacement is empty and no term comes twice.  Hence, for every
    text, no term of the dictionary read at the start offset of a
    candidate is longer than the candidate; every term is found by
    [search], with its replacement by [getReplacement]; and no
    replacement holds a term, so that the TextNode transform leaves a
    text node that holds a replacement as it is. *)
Theorem shipped_dictionary (text : JSString) :
  Forall Matchable Data.foreignWordsData
  ∧ NoDup (terms Data.foreignWordsData)
  ∧ LongestAtStart Data.foreignWordsData text
  ∧ (∀ w r, (w, r) ∈ Data.foreignWordsData →
            Trie.search Data.foreignWordTrie w = true
            ∧ Trie.getReplacement Data.foreignWordTrie w = Some r
            ∧ Trie.findAllMatches Data.foreignWordTrie r = []).
Proof.
  split; [apply foreignWordsData_Matchable|].
  split; [apply (bool_decide_unpack _); by vm_compute|].
  split; [apply candidates_longest, foreignWordsData_Matchable|].
  intros w r Hin.
  pose proof foreignWordsData_found as Hfound.
  pose proof foreignWordsData_replacements_plain as Hplain.
  rewrite Forall_forall in Hfound, Hplain.
  destruct (Hfound _ Hin) as [? ?]. specialize (Hplain _ Hin). done.
Qed.

(** "커피" is two code units, and "컴퓨터" is found in a sentence with its
    replacement "전산기". *)
Example shipped_dictionary_example :
  JS.utf8 "커피" = [0xCEE4; 0xD53C]%N
  ∧ Trie.findAllMatches Data.foreignWordTrie (JS.utf8 "새 컴퓨터를 샀다")
    = [ {| Trie.start := 2; Trie.end_ := 5;
           Trie.word := JS.utf8 "컴퓨터";
           Trie.replacement := JS.utf8 "전산기" |} ].
Proof. split; by vm_compute. Qed.

(** X25.  What the trie of the plugin knows, [isForeignWord] knows too:
    when [search] succeeds on a text, [isForeignWord] returns an entry
    of the dictionary whose word equals the text once both are put in
    lower case, whatever [toLowerCase] does. *)
Theorem search_implies_isForeignWord (toLowerCase : JSString → JSString)
    (text : JSString) :
  Trie.search Data.foreignWordTrie text = true →
  ∃ fw, Data.isForeignWord toLowerCase text = Some fw
        ∧ fw ∈ Data.foreignWordsData
        ∧ toLowerCase fw.1 = toLowerCase text.
Proof.
  intros [r Hin]%search_build. unfold Data.isForeignWord.
  destruct (find _ Data.foreignWordsData) as [fw|] eqn:Hfind.
  - apply find_some in Hfind as [Hfw Heq].
    exists fw. split; [done|]. split.
    + by apply list_elem_of_In.
    + by apply bool_decide_eq_true in Heq.
  - apply list_elem_of_In in Hin.
    apply (find_none _ _ Hfind) in Hin. simpl in Hin.
    by apply bool_decide_eq_false in Hin.
Qed.

Lemma search_implies_isForeignWord_witness :
  ∃ fw, Data.isForeignWord (λ s, s) (JS.utf8 "커피") = Some fw
        ∧ fw ∈ Data.foreignWordsData
        ∧ fw.1 = JS.utf8 "커피".
Proof.
  apply (search_implies_isForeignWord (λ s, s)). by vm_compute.
Defined.

Section WholeTerm.

Implicit Types (data : Dictionary) (w r : JSString) (l : list Trie.Match).

Lemma sweep_all_before l (e : Z) :
  (∀ m, m ∈ l → (Trie.start m < e)%Z) → Trie.sweep l e = [].
Proof.
  induction l as [|x l IH]; intros Hl; simpl; [done|].
  destruct (Trie.start x >=? e)%Z eqn:Hge.
  - assert (Trie.start x < e)%Z by (apply Hl; left). lia.
  - apply IH. intros m Hm. apply Hl. by right.
Qed.

(** The walk over a term of the dictionary, from its first unit on,
    records the term whole. *)
Lemma walk_whole_term data w r :
  Forall Matchable data → (w, r) ∈ data → w ≠ [] →
  ∃ r',
    Trie.walk (Trie.root (Trie.build data)) w 0 None
    = Some {| Trie.last_end := Z.of_nat (length w); Trie.last_word := w;
              Trie.last_replacement := r' |}
    ∧ Trie.getReplacement (Trie.build data) w = Some r'.
Proof.
  intros Hdata Hin Hw. rewrite Forall_forall in Hdata.
  destruct (recordableAt_build_complete data w r) as [r' Hrec];
    [intros e He; by apply Hdata|done|done|].
  destruct (Hdata _ Hin) as [Hcp _]. simpl in Hcp.
  exists r'. split.
  - assert (1 ≤ length w ≤ length w) as Hlen.
    { destruct w; [done|simpl; lia]. }
    destruct (walk_longest (Trie.root (Trie.build data)) w 0 None
                (length w) w r' Hlen) as (lm & Hwalk & Hle).
    { by rewrite take_ge, <-Hcp by lia. }
    rewrite Hwalk. f_equal.
    pose proof (walk_bounds _ _ _ _ _ Hwalk) as [?|Hb]; [done|].
    apply walk_sound in Hwalk as [?|(k & Hk & Hend & Hrec')]; [done|].
    assert (k = length w) as -> by lia.
    rewrite take_ge, <-Hcp, Hrec in Hrec' by lia.
    injection Hrec' as Hword Hrepl.
    destruct lm as [e w' r'']. simpl in *. f_equal; [lia|done..].
  - rewrite getReplacement_replacementAt.
    by apply recordableAt_lookups in Hrec as [_ ?].
Qed.

End WholeTerm.

(** X26.  With a dictionary whose terms have no surrogate pair and whose
    replacements are not empty, a term of the dictionary that is not
    empty, searched on its own, is matched whole and once: the span of
    the one match is the whole text, and its replacement is what
    [getReplacement] returns for the term. *)
Theorem term_matched_whole (data : Dictionary) (w r : JSString) :
  Forall Matchable data → (w, r) ∈ data → w ≠ [] →
  ∃ r',
    Trie.findAllMatches (Trie.build data) w
    = [ {| Trie.start := 0; Trie.end_ := Z.of_nat (length w);
           Trie.word := w; Trie.replacement := r' |} ]
    ∧ Trie.getReplacement (Trie.build data) w = Some r'.
Proof.
  intros Hdata Hin Hw.
  destruct (walk_whole_term data w r Hdata Hin Hw) as (r' & Hwalk & Hrepl).
  exists r'. split; [|done].
  rewrite findAllMatches_sweep. unfold Trie.candidates.
  destruct w as [|u w]; [done|].
  change (seq 0 (length (u :: w))) with (0 :: seq 1 (length w)).
  assert (Trie.matchAt (Trie.build data) (u :: w) 0
          = Some {| Trie.start := 0; Trie.end_ := Z.of_nat (length (u :: w));
                    Trie.word := u :: w; Trie.replacement := r' |}) as Hfirst.
  { unfold Trie.matchAt. rewrite drop_0. change (Z.of_nat 0) with 0%Z.
    by rewrite Hwalk. }
  cbn [omap list_omap]. rewrite Hfirst.
  cbn [Trie.sweep Trie.start Trie.end_].
  change (0 >=? -1)%Z with true. cbn iota.
  rewrite sweep_all_before; [done|].
  intros m (i & _ & Hm)%list_elem_of_omap.
  apply matchAt_within in Hm as [_ [[_ ?] ?]]. lia.
Qed.

Lemma term_matched_whole_witness :
  ∃ r',
    Trie.findAllMatches (Trie.build dict_a_ab) (JS.lit "ab")
    = [ {| Trie.start := 0; Trie.end_ := 2;
           Trie.word := JS.lit "ab"; Trie.replacement := r' |} ]
    ∧ Trie.getReplacement (Trie.build dict_a_ab) (JS.lit "ab") = Some r'.
Proof.
  apply (term_matched_whole dict_a_ab (JS.lit "ab") (JS.lit "y")).
  - repeat constructor; discriminate.
  - right. left.
  - discriminate.
Defined.
